(** * nx-kuritkaj: bundle-deps and local-npm-repo executors

    A shallow embedding of the two Nx executors of the repository,

      - libs/nx-plugin/bundle-deps/src/executors/run/executor.ts
      - libs/nx-plugin/local-npm-repo/src/executors/start-repo/executor.ts

    and the properties their specification states about them.

    JavaScript objects used as dictionaries are [gmap]s; a JavaScript
    [Map], whose iteration order the code relies on, is an association list
    in insertion order; code that throws returns a [result]; the external
    world (the file system, the [npm] command line, the forked registry
    process) is explicit state or an explicit stream of events. *)

From Stdlib Require Import ZArith Ascii String.
From Stdlib.Strings Require Import Byte.
From stdpp Require Import gmap strings list fin_maps pretty.

Set Warnings "-register-all,-clear-no-such-hyp".
Open Scope string_scope.
Open Scope list_scope.

(* ===================================================================== *)
(** * Results of code that may throw                                      *)
(* ===================================================================== *)

Inductive result (E A : Type) : Type :=
  | Ok (a : A)
  | Throw (e : E).
Arguments Ok {E A} a.
Arguments Throw {E A} e.

Definition rbind {E A B} (r : result E A) (k : A → result E B) : result E B :=
  match r with
  | Ok a => k a
  | Throw e => Throw e
  end.

Notation "'let*' x ':=' r 'in' k" := (rbind r (fun x => k))
  (at level 10, x pattern, r at level 100, k at level 200).

(** [path.join] on two segments. *)
Definition join (a b : string) : string := a +:+ "/" +:+ b.

(* ===================================================================== *)
(** * The folder copier                                                   *)
(* ===================================================================== *)

Module Fs.

(** A file tree.  A directory lists its entries by name; [readdirSync]
    returns them in that order. *)
Inductive node : Type :=
  | File (data : list byte)
  | Dir (entries : list (string * node)).

Inductive fs_error : Type :=
  | ENOTDIR            (* readdirSync on something that is no directory *)
  | EEXIST             (* createDirectory over an existing file *)
  | CopyError (element : string).  (* the [throw new Error()] of the copy loop *)

Fixpoint dir_lookup (name : string) (es : list (string * node)) : option node :=
  match es with
  | [] => None
  | (n, c) :: rest => if String.eqb n name then Some c else dir_lookup name rest
  end.

(** Writing an entry: replaces the entry of that name, or adds one. *)
Fixpoint dir_put (name : string) (c : node) (es : list (string * node))
  : list (string * node) :=
  match es with
  | [] => [(name, c)]
  | (n, c0) :: rest =>
      if String.eqb n name then (n, c) :: rest else (n, c0) :: dir_put name c rest
  end.

(** The contents of the file at a relative path, if there is one. *)
Fixpoint file_at (p : list string) (n : node) : option (list byte) :=
  match p, n with
  | [], File data => Some data
  | x :: p', Dir es =>
      match dir_lookup x es with
      | Some c => file_at p' c
      | None => None
      end
  | _, _ => None
  end.

Definition file_at_opt (p : list string) (n : option node) : option (list byte) :=
  match n with
  | Some n => file_at p n
  | None => None
  end.

(** A directory of a real file system lists every name once. *)
Fixpoint wf_node (n : node) : bool :=
  match n with
  | File _ => true
  | Dir es =>
      bool_decide (NoDup (map fst es)) && forallb (fun e => wf_node (snd e)) es
  end.

(** [if (!directoryExists(to)) createDirectory(to)]: the entries of the
    destination directory afterwards. *)
Definition ensureDirectory (to : option node) : result fs_error (list (string * node)) :=
  match to with
  | None => Ok []
  | Some (Dir es) => Ok es
  | Some (File _) => Throw EEXIST
  end.

(** [copyFileSync(join(from, element), join(to, element))] inside its
    [try]: an existing file is overwritten, a directory of that name makes
    the copy fail. *)
Definition copyFileSync (element : string) (data : list byte)
    (dst : list (string * node)) : result fs_error (list (string * node)) :=
  match dir_lookup element dst with
  | Some (Dir _) => Throw (CopyError element)
  | _ => Ok (dir_put element (File data) dst)
  end.

(** [readdirSync(from).forEach(body)]: the body is run on each entry of the
    source in turn, on the entries the destination directory has by then. *)
Definition forEach (body : string → node → list (string * node) →
                           result fs_error (list (string * node))) :=
  fix loop (es dst : list (string * node)) : result fs_error (list (string * node)) :=
    match es with
    | [] => Ok dst
    | (element, c) :: rest =>
        let* dst' := body element c dst in loop rest dst'
    end.

(** [copyFolderSync(from, to)]: [from] is the tree at the source path,
    [to] the tree at the destination path ([None] when nothing is there);
    the result is the tree at the destination path afterwards.  Source and
    destination are taken to be disjoint parts of the file system. *)
Fixpoint copyFolderSync (from : node) (to : option node) : result fs_error node :=
  match from with
  | File _ => Throw ENOTDIR
  | Dir entries =>
      let* dst0 := ensureDirectory to in
      let* dst :=
        forEach (fun element c dst =>
                   match c with
                   | File data => copyFileSync element data dst
                   | Dir _ =>
                       let* sub := copyFolderSync c (dir_lookup element dst) in
                       Ok (dir_put element sub dst)
                   end) entries dst0 in
      Ok (Dir dst)
  end.

(** The body of the loop of [copyFolderSync], by name. *)
Definition copy_entry (element : string) (c : node) (dst : list (string * node))
  : result fs_error (list (string * node)) :=
  match c with
  | File data => copyFileSync element data dst
  | Dir _ =>
      let* sub := copyFolderSync c (dir_lookup element dst) in
      Ok (dir_put element sub dst)
  end.

(** What one pass over the source entries leaves under each name. *)
Definition entry_after (c : option node) (before after : option node) : Prop :=
  match c with
  | None => after = before
  | Some (File data) => after = Some (File data) ∧ ∀ es0, before ≠ Some (Dir es0)
  | Some (Dir sub) => ∃ d, copyFolderSync (Dir sub) before = Ok d ∧ after = Some d
  end.

End Fs.

(* ===================================================================== *)
(** * The bundle-deps executor                                            *)
(* ===================================================================== *)

Module Bundle.

(** ** Data *)

(** [node.type] of a project-graph node. *)
Inductive node_type : Type := app | e2e | lib | npm.

Record graph_node : Type := {
  node_type_of : node_type;      (* node.type *)
  node_name : string;            (* node.name *)
  node_packageName : string;     (* node.data.packageName, of an external node *)
}.

Record DependentBuildableProjectNode : Type := {
  dep_name : string;             (* name: the package name *)
  dep_outputs : list string;     (* outputs *)
  dep_node : graph_node;         (* node *)
}.

Record BundableLibDependency : Type := {
  lib_projectName : string;
  lib_packageName : string;
  lib_validPackageName : bool;
  lib_isScoped : bool;
  lib_distPath : option string;  (* outputs[0]: undefined when there is no output *)
  lib_npmDeps : list string;
}.

(** A version is a string, or [undefined] ([None]). *)
Record NpmPackageDependency : Type := {
  npm_packageName : string;
  npm_version : option string;
}.

(** The manifest as read from the destination: any field may be missing.
    Only the fields the merger looks at are kept; the keys of the maps are
    package names (never the property name [__proto__]). *)
Record PackageJson : Type := {
  pj_dependencies : option (gmap string (option string));
  pj_devDependencies : option (gmap string (option string));
  pj_peerDependencies : option (gmap string (option string));
  pj_optionalDependencies : option (gmap string (option string));
  pj_bundleDependencies : option (list string);
}.

(** The object [packageJson] the merger works on: every container is there. *)
Record Manifest : Type := {
  dependencies : gmap string (option string);
  devDependencies : gmap string (option string);
  peerDependencies : gmap string (option string);
  optionalDependencies : gmap string (option string);
  bundleDependencies : list string;
}.

(** ** The dependency classifier *)

Definition isLibNode (dependency : DependentBuildableProjectNode) : bool :=
  match node_type_of (dep_node dependency) with lib => true | _ => false end.

Definition isNpmPackage (dependency : DependentBuildableProjectNode) : bool :=
  match node_type_of (dep_node dependency) with npm => true | _ => false end.

Definition is_digit (c : ascii) : bool :=
  let n := nat_of_ascii c in (48 <=? n)%nat && (n <=? 57)%nat.
Definition is_letter (c : ascii) : bool :=
  let n := nat_of_ascii c in
  ((65 <=? n)%nat && (n <=? 90)%nat) || ((97 <=? n)%nat && (n <=? 122)%nat).
(** [[a-z\d]] under the [i] flag. *)
Definition is_alnum (c : ascii) : bool := is_letter c || is_digit c.
(** [[\w-.]]: a word character, a dash or a dot. *)
Definition is_name_char (c : ascii) : bool :=
  is_alnum c || Ascii.eqb c "_" || Ascii.eqb c "-" || Ascii.eqb c ".".

Fixpoint all_chars (p : ascii → bool) (s : string) : bool :=
  match s with
  | EmptyString => true
  | String c s' => p c && all_chars p s'
  end.

(** The part of a string before its first [/] and the part after it. *)
Fixpoint cut_at_slash (s : string) : option (string * string) :=
  match s with
  | EmptyString => None
  | String c s' =>
      if Ascii.eqb c "/" then Some (EmptyString, s')
      else match cut_at_slash s' with
           | Some (a, b) => Some (String c a, b)
           | None => None
           end
  end.

(** [isScoped]: the name matches [^@[a-z\d][\w-.]+/[a-z\d][\w-.]*$],
    case-insensitively.  No class of the pattern contains [/], so a match
    splits the name at its only slash. *)
Definition isScoped (name : string) : bool :=
  match name with
  | String "@" (String c1 rest) =>
      is_alnum c1 &&
      match cut_at_slash rest with
      | Some (scope_rest, String c2 pkg_rest) =>
          negb (String.eqb scope_rest "") && all_chars is_name_char scope_rest &&
          is_alnum c2 && all_chars is_name_char pkg_rest
      | _ => false
      end
  | _ => false
  end.

(** [s.split(sep)[1]]: the piece between the first and the second
    occurrence of [sep]; [undefined] when [sep] does not occur. *)
Definition split_second (sep s : string) : option string :=
  match String.index 0 sep s with
  | None => None
  | Some i =>
      let rest := String.substring (i + String.length sep)
                    (String.length s - (i + String.length sep)) s in
      match String.index 0 sep rest with
      | None => Some rest
      | Some j => Some (String.substring 0 j rest)
      end
  end.

(** [[...new Set(l)]]: the first occurrence of each element, in order. *)
Fixpoint set_spread (l : list string) : list string :=
  match l with
  | [] => []
  | x :: l' => x :: filter (λ y, y ≠ x) (set_spread l')
  end.

Record ProjectDependencies : Type := {
  libDeps : list BundableLibDependency;
  npmDeps : list NpmPackageDependency;
}.

Section classifier.

(** [validate(packageName).validForNewPackages] of validate-npm-package-name. *)
Variable validForNewPackages : string → bool.

(** [getProjectDependencies], from what its calls into Nx return:
    [dependencies] and [topLevelDependencies] of
    [calculateProjectDependencies], the targets of the helper dependencies
    found by [getHelperDependenciesFromProjectGraph], and the versions
    [getAllDependencies] collects from the root manifest. *)
Definition getProjectDependencies
    (dependencies topLevelDependencies : list DependentBuildableProjectNode)
    (helperDependencies : list string)
    (rootNpmDeps : gmap string string) : ProjectDependencies :=
  let deps := dependencies ++ topLevelDependencies in
  let libDeps :=
    filter (λ dep, lib_validPackageName dep = true)
      (map (λ dep,
              let packageName := dep_name dep in
              let projectName := node_name (dep_node dep) in
              {| lib_projectName := projectName;
                 lib_packageName := packageName;
                 lib_validPackageName := validForNewPackages packageName;
                 lib_isScoped := isScoped projectName;
                 lib_distPath := head (dep_outputs dep);
                 lib_npmDeps := [] |})
           (filter (λ dep, isLibNode dep = true) deps)) in
  let npmDeps :=
    map (λ dep, node_packageName (dep_node dep))
        (filter (λ dep, isNpmPackage dep = true) deps) in
  let projectHelperDeps :=
    map (λ target, match split_second "npm:" target with
                   | Some "" | None => ""
                   | Some piece => piece
                   end) helperDependencies in
  let helperNmpDeps := flat_map lib_npmDeps libDeps in
  let combinedNpmDeps := set_spread (npmDeps ++ projectHelperDeps ++ helperNmpDeps) in
  {| libDeps := libDeps;
     npmDeps := map (λ d, {| npm_packageName := d; npm_version := rootNpmDeps !! d |})
                    combinedNpmDeps |}.

End classifier.

(** ** The manifest merger *)

(** [{dependencies: {}, ..., bundleDependencies: [], ...publishPackageJson}] *)
Definition with_defaults (publishPackageJson : PackageJson) : Manifest :=
  {| dependencies := default ∅ (pj_dependencies publishPackageJson);
     devDependencies := default ∅ (pj_devDependencies publishPackageJson);
     peerDependencies := default ∅ (pj_peerDependencies publishPackageJson);
     optionalDependencies := default ∅ (pj_optionalDependencies publishPackageJson);
     bundleDependencies := default [] (pj_bundleDependencies publishPackageJson) |}.

(** [Object.keys] of the four maps, collected into a set. *)
Definition depNames (outputJson : Manifest) : gset string :=
  dom (dependencies outputJson) ∪ dom (peerDependencies outputJson)
  ∪ dom (optionalDependencies outputJson) ∪ dom (devDependencies outputJson).

Definition hasDependency (outputJson : Manifest) (dep : string) : bool :=
  bool_decide (dep ∈ depNames outputJson).

Inductive destination : Type := to_dependencies | to_bundledDependencies.

Definition set_dependency (npmDep : NpmPackageDependency) (packageJson : Manifest) : Manifest :=
  {| dependencies := <[npm_packageName npmDep := npm_version npmDep]> (dependencies packageJson);
     devDependencies := devDependencies packageJson;
     peerDependencies := peerDependencies packageJson;
     optionalDependencies := optionalDependencies packageJson;
     bundleDependencies := bundleDependencies packageJson |}.

Definition push_bundled (packageName : string) (packageJson : Manifest) : Manifest :=
  {| dependencies := dependencies packageJson;
     devDependencies := devDependencies packageJson;
     peerDependencies := peerDependencies packageJson;
     optionalDependencies := optionalDependencies packageJson;
     bundleDependencies := bundleDependencies packageJson ++ [packageName] |}.

(** [addDependency]: a bundled dependency is pushed on the list and then
    added as a plain dependency. *)
Definition addDependency (npmDep : NpmPackageDependency) (dest : destination)
    (packageJson : Manifest) : Manifest :=
  match dest with
  | to_bundledDependencies =>
      set_dependency npmDep (push_bundled (npm_packageName npmDep) packageJson)
  | to_dependencies => set_dependency npmDep packageJson
  end.

Inductive merge_error : Type :=
  | NoSourceFolder                 (* readdirSync of a path that is not there *)
  | CopyFailed (e : Fs.fs_error).

Section merger.

(** The file system, addressed by path. *)
Variable World : Type.
(** The tree at a path, if anything is there. *)
Variable tree_at : string → World → option Fs.node.
(** The file system with the tree at a path replaced. *)
Variable put_tree : string → Fs.node → World → World.
(** [getPackageJson(path).version]. *)
Variable version_at : string → World → option string.
(** [writeJsonFile(path, packageJson)]. *)
Variable writeJsonFile : string → Manifest → World → World.

(** [copyFolderSync(from, to)] on paths. *)
Definition copyFolderSync (from : option string) (to : string) (w : World)
  : result merge_error World :=
  match from ≫= (λ p, tree_at p w) with
  | None => Throw NoSourceFolder
  | Some src =>
      match Fs.copyFolderSync src (tree_at to w) with
      | Ok d => Ok (put_tree to d w)
      | Throw e => Throw (CopyFailed e)
      end
  end.

(** The body of [libDeps.forEach]. *)
Definition merge_lib (publishNodeModulesPath : string)
    (dependency : BundableLibDependency) (st : Manifest * World)
  : result merge_error (Manifest * World) :=
  let '(packageJson, w) := st in
  if hasDependency packageJson (lib_packageName dependency) then Ok st
  else
    let to := join publishNodeModulesPath (lib_packageName dependency) in
    let* w' := copyFolderSync (lib_distPath dependency) to w in
    let version := version_at (join to "package.json") w' in
    Ok (addDependency {| npm_packageName := lib_packageName dependency;
                         npm_version := version |}
                      to_bundledDependencies packageJson, w').

(** The body of [npmDeps.forEach]. *)
Definition merge_npm (dependency : NpmPackageDependency) (packageJson : Manifest) : Manifest :=
  if hasDependency packageJson (npm_packageName dependency) then packageJson
  else addDependency dependency to_dependencies packageJson.

Fixpoint merge_libs (publishNodeModulesPath : string)
    (libDeps : list BundableLibDependency) (st : Manifest * World)
  : result merge_error (Manifest * World) :=
  match libDeps with
  | [] => Ok st
  | dependency :: rest =>
      let* st' := merge_lib publishNodeModulesPath dependency st in
      merge_libs publishNodeModulesPath rest st'
  end.

Definition merge_npms (npmDeps : list NpmPackageDependency) (packageJson : Manifest) : Manifest :=
  fold_left (λ pj dependency, merge_npm dependency pj) npmDeps packageJson.

Record ProjectInfoPlusPlus : Type := {
  publishPackageJson : PackageJson;
  publishPackageJsonPath : string;
  publishNodeModulesPath : string;
  info_libDeps : list BundableLibDependency;
  info_npmDeps : list NpmPackageDependency;
}.

(** The manifest object [updateDependencies2] has built when it reaches
    [writeJsonFile], with the file system at that point. *)
Definition merged (projectInfo : ProjectInfoPlusPlus) (w : World)
  : result merge_error (Manifest * World) :=
  let packageJson := with_defaults (publishPackageJson projectInfo) in
  let* st :=
    merge_libs (publishNodeModulesPath projectInfo) (info_libDeps projectInfo)
               (packageJson, w) in
  Ok (merge_npms (info_npmDeps projectInfo) (fst st), snd st).

Definition updateDependencies2 (projectInfo : ProjectInfoPlusPlus) (w : World)
  : result merge_error (bool * World) :=
  let* st := merged projectInfo w in
  Ok (true, writeJsonFile (publishPackageJsonPath projectInfo) (fst st) (snd st)).

(** [runExecutor], after the project information is gathered: [success]
    and the file system left behind (unknown after a failure). *)
Definition runExecutor (projectInfo : ProjectInfoPlusPlus) (w : World) : bool * option World :=
  match updateDependencies2 projectInfo w with
  | Ok (_, w') => (true, Some w')
  | Throw _ => (false, None)
  end.

(** A name the pass over the library dependencies pushed on
    [bundleDependencies]: no map had it, a library dependency carries it,
    its folder was copied, and [dependencies] binds it to the version read
    from the copy. *)
Definition bundled_by (nm : string) (libs : list BundableLibDependency)
    (before after : Manifest) (n : string) : Prop :=
  (n ∉ depNames before)
  ∧ ∃ dependency w1 w2,
      dependency ∈ libs ∧ lib_packageName dependency = n
      ∧ copyFolderSync (lib_distPath dependency) (join nm n) w1 = Ok w2
      ∧ dependencies after !! n = Some (version_at (join (join nm n) "package.json") w2).

End merger.

(** What [JSON.stringify] keeps of a map: the members whose value is not
    [undefined]. *)
Definition written (m : gmap string (option string)) : gmap string string :=
  omap id m.

End Bundle.

(* ===================================================================== *)
(** * The start-repo executor                                             *)
(* ===================================================================== *)

Module StartRepo.

(** ** Values, and JavaScript [Map]s *)

(** A configuration value: a string, or [undefined]. *)
Definition value : Type := option string.
(** A configuration location: ['global'], ['user'], ..., or [undefined]. *)
Definition location : Type := option string.

(** The values that pass [if (value)]. *)
Definition truthy (v : value) : bool :=
  match v with
  | Some s => negb (String.eqb s "")
  | None => false
  end.

Section js_map.
Context {K V : Type} `{EqDecision K}.

(** A [Map] in insertion order. *)
Fixpoint map_get (k : K) (m : list (K * V)) : option V :=
  match m with
  | [] => None
  | (k', v) :: rest => if decide (k' = k) then Some v else map_get k rest
  end.

Definition map_has (k : K) (m : list (K * V)) : bool :=
  match map_get k m with Some _ => true | None => false end.

(** [Map.set]: an existing key keeps its place. *)
Fixpoint map_set (k : K) (v : V) (m : list (K * V)) : list (K * V) :=
  match m with
  | [] => [(k, v)]
  | (k', v') :: rest =>
      if decide (k' = k) then (k', v) :: rest else (k', v') :: map_set k v rest
  end.

End js_map.

(** ** The world outside *)

(** The two command lines given to [execSync]. *)
Inductive npm_command : Type :=
  | config_delete (name : string) (loc : location)
  | config_set (name : string) (v : string) (loc : location).

Inductive signal : Type :=
  | signal_name (s : string)
  | signal_number (n : Z).

Inductive error : Type :=
  | CommandFailed (c : npm_command)       (* execSync throws *)
  | UnknownSignal (sig : option signal)   (* childProcess.kill throws *)
  | VerdaccioNotInstalled.

Record VerdaccioPackageConf : Type := {
  access : string;
  publish : string;
  unpublish : string;
  proxy : string;
}.

Record VerdaccioConfig : Type := {
  storage : string;
  uplinks : gmap string string;           (* name ↦ url *)
  packages : gmap string VerdaccioPackageConf;
  log_type : string;
  log_format : string;
  log_level : string;
  publish_allow_offline : bool;
  middlewares_audit_enabled : bool;
}.

(** What the executor does to the world, in order. *)
Inductive event : Type :=
  | Exec (c : npm_command)                (* execSync(c) *)
  | WriteYaml (file : string) (data : VerdaccioConfig)
  | Kill (sig : option signal)            (* childProcess.kill(signal) *)
  | ConsoleError (e : error).             (* console.error(e) *)

(** The [NpmConfManager] object ([originalConf],
    [originalValuesForLocations]), the module variable [childProcess]
    (whether it holds a process), the package manager's configuration files
    ([npmrc], by location and key) and the trace of effects so far. *)
Record state : Type := {
  originalConf : string → location → value;
  originalValuesForLocations : list (location * list (string * value));
  childProcess : bool;
  npmrc : gmap (location * string) string;
  trace : list event;
}.

Definition with_table (t : list (location * list (string * value))) (s : state) : state :=
  {| originalConf := originalConf s; originalValuesForLocations := t;
     childProcess := childProcess s; npmrc := npmrc s; trace := trace s |}.

Definition with_npmrc (m : gmap (location * string) string) (s : state) : state :=
  {| originalConf := originalConf s;
     originalValuesForLocations := originalValuesForLocations s;
     childProcess := childProcess s; npmrc := m; trace := trace s |}.

Definition emit (e : event) (s : state) : state :=
  {| originalConf := originalConf s;
     originalValuesForLocations := originalValuesForLocations s;
     childProcess := childProcess s; npmrc := npmrc s; trace := trace s ++ [e] |}.

(** ** Code that changes the state and may throw *)

Inductive outcome (A : Type) : Type :=
  | Returns (a : A) (s : state)
  | Throws (e : error) (s : state).
Arguments Returns {A} a s.
Arguments Throws {A} e s.

Definition M (A : Type) : Type := state → outcome A.

Definition ret {A} (a : A) : M A := λ s, Returns a s.
Definition throw {A} (e : error) : M A := λ s, Throws e s.
Definition bind {A B} (m : M A) (k : A → M B) : M B :=
  λ s, match m s with
       | Returns a s' => k a s'
       | Throws e s' => Throws e s'
       end.
(** [try { m } catch (e) { handler(e) }] *)
Definition try_catch {A} (m : M A) (handler : error → M A) : M A :=
  λ s, match m s with
       | Returns a s' => Returns a s'
       | Throws e s' => handler e s'
       end.

Notation "x <~ m ;; k" := (bind m (λ x, k))
  (at level 100, m at next level, right associativity).
Notation "m ;;; k" := (bind m (λ _, k)) (at level 100, right associativity).

(** [l.forEach(body)] *)
Fixpoint forEach {A} (body : A → M unit) (l : list A) : M unit :=
  match l with
  | [] => ret tt
  | x :: rest => body x ;;; forEach body rest
  end.

Definition final_state {A} (o : outcome A) : state :=
  match o with
  | Returns _ s => s
  | Throws _ s => s
  end.

(** The effect of a command that succeeds on the configuration files. *)
Definition apply_command (c : npm_command) (m : gmap (location * string) string)
  : gmap (location * string) string :=
  match c with
  | config_delete name loc => delete (loc, name) m
  | config_set name v loc => <[(loc, name) := v]> m
  end.

Section executor.

(** Whether a command, run after the given trace, fails. *)
Variable npm_fails : list event → npm_command → bool.

Definition execSync (c : npm_command) : M unit :=
  λ s, let s' := emit (Exec c) s in
       if npm_fails (trace s) c then Throws (CommandFailed c) s'
       else Returns tt (with_npmrc (apply_command c (npmrc s)) s').

(** ** [NpmConfManager] *)

(** [new NpmConfManager()], given what [npmConf().config] loaded. *)
Definition NpmConfManager (conf : string → location → value)
    (files : gmap (location * string) string) : state :=
  {| originalConf := conf; originalValuesForLocations := [];
     childProcess := false; npmrc := files; trace := [] |}.

(** [get(name, location)]; [get(name)] is [get name None], the effective
    value. *)
Definition get (name : string) (loc : location) : M value :=
  λ s, Returns (originalConf s name loc) s.

Definition getForLocation (name : string) (loc : location) : M (value * value) :=
  v <~ get name None ;;
  locationValue <~ get name loc ;;
  ret (v, locationValue).

Definition getLocationOriginalValues (loc : location) : M (list (string * value)) :=
  λ s, match map_get loc (originalValuesForLocations s) with
       | Some vals => Returns vals s
       | None => Returns [] (with_table (map_set loc [] (originalValuesForLocations s)) s)
       end.

(** [locationValues.set(name, v)] on the map held under [loc]. *)
Definition locationValues_set (loc : location) (name : string) (v : value) : M unit :=
  λ s, let t := originalValuesForLocations s in
       Returns tt (with_table (map_set loc (map_set name v (default [] (map_get loc t))) t) s).

Definition storeOriginalValue (name : string) (loc : location) : M unit :=
  locationValues <~ getLocationOriginalValues loc ;;
  if map_has name locationValues then ret tt
  else v <~ get name loc ;; locationValues_set loc name v.

Definition set (name : string) (v : value) (loc : location) : M unit :=
  storeOriginalValue name loc ;;;
  if negb (truthy v) then execSync (config_delete name loc)
  else execSync (config_set name (default "" v) loc).

Definition restore (loc : location) : M unit :=
  vals <~ getLocationOriginalValues loc ;;
  forEach (λ '(name, v), set name v loc) vals.

(** The loop runs over the keys the map has when it starts: a [restore]
    that returns leaves the map as it was, so the live iterator of the source
    sees the same keys. *)
Definition restoreAll : M unit :=
  λ s, forEach restore (map fst (originalValuesForLocations s)) s.

(** The command [set(name, v, loc)] hands to [execSync]. *)
Definition command_for (name : string) (v : value) (loc : location) : npm_command :=
  if negb (truthy v) then config_delete name loc
  else config_set name (default "" v) loc.

(** The commands one [restoreAll] issues for the snapshots held. *)
Definition restore_commands (t : list (location * list (string * value)))
  : list npm_command :=
  flat_map (λ loc, map (λ '(name, v), command_for name v loc) (default [] (map_get loc t)))
           (map fst t).

(** The value a key has at a location after [restore] wrote [v] back. *)
Definition written_back (v : value) : value := if truthy v then v else None.

(** The snapshot held for a key at a location. *)
Definition captured (name : string) (loc : location) (s : state) : option value :=
  map_get loc (originalValuesForLocations s) ≫= map_get name.

(** Calls on the manager, and a caller that makes them one after the other
    whether or not one throws. *)
Inductive call : Type :=
  | call_set (name : string) (v : value) (loc : location)
  | call_restore (loc : location)
  | call_restoreAll.

Definition do_call (c : call) : M unit :=
  match c with
  | call_set name v loc => set name v loc
  | call_restore loc => restore loc
  | call_restoreAll => restoreAll
  end.

Definition run_calls (calls : list call) (s : state) : state :=
  fold_left (λ s c, final_state (do_call c s)) calls s.

(** ** The registry configuration *)

Record NpmConfItem : Type := {
  item_name : string;
  item_key : string;
}.

Record NpmRegistryConfigItem : Type := {
  name : string;
  key : string;
  value_of : value;           (* value: the effective value *)
  locationValue : value;
}.

Definition npmRegistry : NpmConfItem := {| item_name := "npm"; item_key := "registry" |}.

Definition createScopedRegistryConfigItem (s : string) : NpmConfItem :=
  {| item_name := s; item_key := "@" +:+ s +:+ ":registry" |}.

Definition mapNpmScopesToConfItems (npmScopes : list string) : list NpmConfItem :=
  map createScopedRegistryConfigItem npmScopes.

Fixpoint mapM {A B} (f : A → M B) (l : list A) : M (list B) :=
  match l with
  | [] => ret []
  | x :: rest => y <~ f x ;; ys <~ mapM f rest ;; ret (y :: ys)
  end.

(** [getNpmRegistriesConfig], from the scopes of the workspace. *)
Definition getNpmRegistriesConfig (npmScopes : list string) (loc : location)
  : M (list NpmRegistryConfigItem) :=
  mapM (λ item,
          vs <~ getForLocation (item_key item) loc ;;
          ret {| name := item_name item; key := item_key item;
                 value_of := fst vs; locationValue := snd vs |})
       (mapNpmScopesToConfItems npmScopes ++ [npmRegistry]).

Definition packageKey (item : NpmRegistryConfigItem) : string :=
  if String.eqb (key item) "registry" then "**" else "@" +:+ name item +:+ "/*".

Definition createVerdaccioConfig (npmRegistryConfig : list NpmRegistryConfigItem)
  : VerdaccioConfig :=
  let verdaccioUplinks :=
    fold_left (λ acc item,
                 if negb (truthy (value_of item)) then acc
                 else <[name item := default "" (value_of item)]> acc)
              npmRegistryConfig ∅ in
  let verdaccioPackages :=
    fold_left (λ acc item,
                 let packageKey := packageKey item in
                 if negb (truthy (value_of item)) then acc
                 else
                   let packageConf :=
                     {| access := "$all"; publish := "$all"; unpublish := "$all";
                        proxy := name item |} in
                   <[packageKey := packageConf]> acc)
              npmRegistryConfig ∅ in
  {| storage := "../tmp/local-registry/storage";
     uplinks := verdaccioUplinks;
     packages := verdaccioPackages;
     log_type := "stdout";
     log_format := "pretty";
     log_level := "debug";
     publish_allow_offline := true;
     middlewares_audit_enabled := true |}.

Record LocalRegistrySettings : Type := {
  registry : string;
  authTokenKey : string;
  authTokenValue : string;
}.

Definition getLocalRegistrySettings (port : Z) : LocalRegistrySettings :=
  let hostAndPort := "localhost:" +:+ pretty port +:+ "/" in
  {| registry := "http://" +:+ hostAndPort;
     authTokenKey := "//" +:+ hostAndPort +:+ ":_authToken";
     authTokenValue := "secretVerdaccioToken" |}.

Definition configureNpm (npmRegistryConfig : list NpmRegistryConfigItem)
    (registryConfig : LocalRegistrySettings) (loc : location) : M unit :=
  forEach (λ item, set (key item) (Some (registry registryConfig)) loc) npmRegistryConfig ;;;
  set (authTokenKey registryConfig) (Some (authTokenValue registryConfig)) loc.

(** ** The exit handler *)

(** Whether [childProcess.kill] rejects its argument (the handler is also
    given exit codes, which need not be signal numbers). *)
Variable kill_throws : option signal → bool.

(** [if (childProcess) { childProcess.kill(signal) }] *)
Definition kill_child (sig : option signal) : M unit :=
  λ s, if childProcess s
       then if kill_throws sig then Throws (UnknownSignal sig) s
            else Returns tt (emit (Kill sig) s)
       else Returns tt s.

Definition processExitListener (sig : option signal) : M unit :=
  kill_child sig ;;;
  try_catch restoreAll (λ e s, Returns tt (emit (ConsoleError e) s)).

(** ** The registry process *)

(** What the forked process reports to its listeners. *)
Inductive child_event : Type :=
  | on_error (err : string)
  | on_disconnect
  | on_exit (code : option Z).     (* null when a signal ended the process *)

#[global] Instance child_event_eq_dec : EqDecision child_event.
Proof. solve_decision. Defined.

Inductive rejection : Type :=
  | rejected_error (err : string)
  | rejected_disconnect
  | rejected_exit (code : option Z).

Inductive promise : Type :=
  | Pending
  | Resolved (code : Z)
  | Rejected (r : rejection).

(** A listener of [startVerdaccio] runs; a promise settles once. *)
Definition listener (p : promise) (e : child_event) : promise :=
  match p with
  | Pending =>
      match e with
      | on_error err => Rejected (rejected_error err)
      | on_disconnect => Rejected rejected_disconnect
      | on_exit code =>
          if bool_decide (code = Some 0%Z) then Resolved 0 else Rejected (rejected_exit code)
      end
  | _ => p
  end.

(** The promise of [startVerdaccio] after the child reported [events]. *)
Definition startVerdaccio (events : list child_event) : promise :=
  fold_left listener events Pending.

Record ExecutorResult : Type := {
  success : bool;
  port : Z;
}.

(** What [await startVerdaccio(options)] and the code after it give:
    nothing as long as the promise is pending. *)
Definition awaited (options_port : Z) (p : promise) : option ExecutorResult :=
  match p with
  | Pending => None
  | Resolved _ => Some {| success := true; port := options_port |}
  | Rejected _ => Some {| success := false; port := options_port |}
  end.

Record StartRepoExecutorSchema : Type := {
  options_location : location;
  options_port : Z;
}.

(** [runExecutor], from the construction of the manager on: whether
    verdaccio resolves, the scopes of the workspace and what the child
    process reports are given. *)
Definition runExecutor (verdaccio_resolves : bool) (options : StartRepoExecutorSchema)
    (npmScopes : list string) (events : list child_event)
  : M (option ExecutorResult) :=
  if negb verdaccio_resolves then throw VerdaccioNotInstalled
  else
    let registryConfig := getLocalRegistrySettings (options_port options) in
    npmRegistryConfig <~ getNpmRegistriesConfig npmScopes (options_location options) ;;
    let verdaccionConfig := createVerdaccioConfig npmRegistryConfig in
    (λ s, Returns tt (emit (WriteYaml ".verdaccio/generated_config.yaml" verdaccionConfig) s)) ;;;
    configureNpm npmRegistryConfig registryConfig (options_location options) ;;;
    (λ s, Returns tt
            {| originalConf := originalConf s;
               originalValuesForLocations := originalValuesForLocations s;
               childProcess := true; npmrc := npmrc s; trace := trace s |}) ;;;
    ret (awaited (options_port options) (startVerdaccio events)).

End executor.

(** ** Notions used to state the properties *)

(** The key and the location a command writes. *)
Definition target (c : npm_command) : string * location :=
  match c with
  | config_delete name loc => (name, loc)
  | config_set name _ loc => (name, loc)
  end.

(** The state after the given commands ran one after the other and none
    failed. *)
Definition after_commands (cmds : list npm_command) (s : state) : state :=
  {| originalConf := originalConf s;
     originalValuesForLocations := originalValuesForLocations s;
     childProcess := childProcess s;
     npmrc := fold_left (λ m c, apply_command c m) cmds (npmrc s);
     trace := trace s ++ map Exec cmds |}.

(** No inner map holds a key twice (as in a [Map]). *)
Definition table_wf (s : state) : Prop :=
  ∀ loc vals, map_get loc (originalValuesForLocations s) = Some vals → NoDup (map fst vals).

(** Every snapshot is the value the configuration had at that location. *)
Definition faithful (s : state) : Prop :=
  ∀ name loc v, captured name loc s = Some v → v = originalConf s name loc.

(** Every key a command was issued for has its snapshot. *)
Definition covered (s : state) : Prop :=
  ∀ c, Exec c ∈ trace s → is_Some (captured (fst (target c)) (snd (target c)) s).

Definition manager_inv (s : state) : Prop := table_wf s ∧ faithful s ∧ covered s.

(** How a later state of the manager relates to an earlier one. *)
Definition extends (s s' : state) : Prop :=
  originalConf s' = originalConf s
  ∧ childProcess s' = childProcess s
  ∧ (∃ evs, trace s' = trace s ++ evs)
  ∧ (∀ name loc v, captured name loc s = Some v → captured name loc s' = Some v)
  ∧ (manager_inv s → manager_inv s').

End StartRepo.

(* ===================================================================== *)
(** * Sample surroundings                                                 *)
(* ===================================================================== *)

(** Small stand-ins for what the executors are given from outside, to run
    them on concrete inputs. *)
Module Sample.

(** A file system as a table from folder paths to the tree found there,
    with the manifests written by [writeJsonFile] kept apart, latest first. *)
Definition world : Type := list (string * Fs.node) * list (string * Bundle.Manifest).

Definition tree_at (path : string) (w : world) : option Fs.node := Fs.dir_lookup path (fst w).

Definition put_tree (path : string) (d : Fs.node) (w : world) : world :=
  (Fs.dir_put path d (fst w), snd w).

(** A path cut at its last slash. *)
Fixpoint split_last (path : string) : option (string * string) :=
  match path with
  | EmptyString => None
  | String c rest =>
      match split_last rest with
      | Some (folder, file) => Some (String c folder, file)
      | None => if Ascii.eqb c "/" then Some (EmptyString, rest) else None
      end
  end.

(** A manifest file here holds nothing but the text of its version. *)
Definition version_at (path : string) (w : world) : option string :=
  match split_last path with
  | Some (folder, file) =>
      match tree_at folder w with
      | Some t => string_of_list_byte <$> Fs.file_at [file] t
      | None => None
      end
  | None => None
  end.

Definition writeJsonFile (path : string) (packageJson : Bundle.Manifest) (w : world) : world :=
  (fst w, (path, packageJson) :: snd w).

(** One rule of validate-npm-package-name: no capital letter in a name. *)
Definition no_capitals (packageName : string) : bool :=
  Bundle.all_chars (λ c, let n := nat_of_ascii c in negb ((65 <=? n)%nat && (n <=? 90)%nat))
                   packageName.

(** A built library [@acme/ui] at version 1.2.3. *)
Definition acme_ui_dist : Fs.node :=
  Fs.Dir [("package.json", Fs.File (list_byte_of_string "1.2.3"));
          ("index.js", Fs.File [])].

Definition acme_ui : Bundle.BundableLibDependency :=
  {| Bundle.lib_projectName := "ui"; Bundle.lib_packageName := "@acme/ui";
     Bundle.lib_validPackageName := true; Bundle.lib_isScoped := false;
     Bundle.lib_distPath := Some "dist/libs/ui"; Bundle.lib_npmDeps := [] |}.

Definition lodash_new : Bundle.NpmPackageDependency :=
  {| Bundle.npm_packageName := "lodash"; Bundle.npm_version := Some "4.17.21" |}.

(** The scenario of the specification: the destination already depends on
    lodash 4.17.0. *)
Definition project : Bundle.ProjectInfoPlusPlus :=
  {| Bundle.publishPackageJson :=
       {| Bundle.pj_dependencies := Some {["lodash" := Some "4.17.0"]};
          Bundle.pj_devDependencies := None;
          Bundle.pj_peerDependencies := None;
          Bundle.pj_optionalDependencies := None;
          Bundle.pj_bundleDependencies := None |};
     Bundle.publishPackageJsonPath := "publish/package.json";
     Bundle.publishNodeModulesPath := "publish/node_modules";
     Bundle.info_libDeps := [acme_ui];
     Bundle.info_npmDeps := [lodash_new] |}.

Definition disk : world := ([("dist/libs/ui", acme_ui_dist)], []).

Definition empty_disk : world := ([], []).

(** A workspace library under a name with capital letters. *)
Definition My_Lib : Bundle.DependentBuildableProjectNode :=
  {| Bundle.dep_name := "My_Lib"; Bundle.dep_outputs := ["dist/libs/my-lib"];
     Bundle.dep_node := {| Bundle.node_type_of := Bundle.lib; Bundle.node_name := "my-lib";
                           Bundle.node_packageName := "" |} |}.

(** A configuration in which the registry is the public one by default
    and the user's file says nothing about it. *)
Definition conf : string → StartRepo.location → StartRepo.value :=
  λ name loc,
    if String.eqb name "registry"
    then match loc with
         | None => Some "https://registry.npmjs.org/"
         | Some _ => None
         end
    else None.

(** A configuration in which the user's file has the line [registry=]. *)
Definition conf_empty_registry : string → StartRepo.location → StartRepo.value :=
  λ name loc,
    if String.eqb name "registry"
    then match loc with
         | None => Some ""
         | Some l => if String.eqb l "user" then Some "" else None
         end
    else None.

Definition files_empty_registry : gmap (StartRepo.location * string) string :=
  {[ (Some "user", "registry") := "" ]}.

(** A configuration in which the user's file names a private registry. *)
Definition conf_private : string → StartRepo.location → StartRepo.value :=
  λ name loc,
    if String.eqb name "registry"
    then match loc with
         | None => Some "https://npm.acme.test/"
         | Some l => if String.eqb l "user" then Some "https://npm.acme.test/" else None
         end
    else None.

Definition files_private : gmap (StartRepo.location * string) string :=
  {[ (Some "user", "registry") := "https://npm.acme.test/" ]}.

Definition never_fails : list StartRepo.event → StartRepo.npm_command → bool := λ _ _, false.
Definition always_fails : list StartRepo.event → StartRepo.npm_command → bool := λ _ _, true.

(** The manager after the registry was pointed at the local one, twice. *)
Definition pointed_at_local : StartRepo.state :=
  StartRepo.run_calls never_fails
    [StartRepo.call_set "registry" (Some "http://localhost:4873/") (Some "user");
     StartRepo.call_set "registry" (Some "http://localhost:4874/") (Some "user")]
    (StartRepo.NpmConfManager conf_private files_private).

(** The same manager once the registry process was forked. *)
Definition serving : StartRepo.state :=
  {| StartRepo.originalConf := StartRepo.originalConf pointed_at_local;
     StartRepo.originalValuesForLocations :=
       StartRepo.originalValuesForLocations pointed_at_local;
     StartRepo.childProcess := true;
     StartRepo.npmrc := StartRepo.npmrc pointed_at_local;
     StartRepo.trace := StartRepo.trace pointed_at_local |}.

End Sample.

(* ===================================================================== *)
(** * The manifest merger, run on what it wrote                           *)
(* ===================================================================== *)

Module Reread.
Import Bundle.

(** The manifest as a later run reads it back from the file
    [writeJsonFile] wrote: the members of a map whose value was [undefined]
    are not in the file. *)
Definition reread (packageJson : Manifest) : PackageJson :=
  {| pj_dependencies := Some (Some <$> written (dependencies packageJson));
     pj_devDependencies := Some (Some <$> written (devDependencies packageJson));
     pj_peerDependencies := Some (Some <$> written (peerDependencies packageJson));
     pj_optionalDependencies := Some (Some <$> written (optionalDependencies packageJson));
     pj_bundleDependencies := Some (bundleDependencies packageJson) |}.

(** No member of the four maps is [undefined]. *)
Definition all_versions_defined (packageJson : Manifest) : Prop :=
  ∀ n, dependencies packageJson !! n ≠ Some None
       ∧ devDependencies packageJson !! n ≠ Some None
       ∧ peerDependencies packageJson !! n ≠ Some None
       ∧ optionalDependencies packageJson !! n ≠ Some None.


End Reread.

(* ===================================================================== *)
(** * The dependency classifier: the records it builds                    *)
(* ===================================================================== *)

Module Classified.
Import Bundle.


(** The record [getProjectDependencies] builds for a library node. *)
Definition lib_of (validForNewPackages : string → bool)
    (dep : DependentBuildableProjectNode) : BundableLibDependency :=
  {| lib_projectName := node_name (dep_node dep);
     lib_packageName := dep_name dep;
     lib_validPackageName := validForNewPackages (dep_name dep);
     lib_isScoped := isScoped (node_name (dep_node dep));
     lib_distPath := head (dep_outputs dep);
     lib_npmDeps := [] |}.

End Classified.

(* ===================================================================== *)
(** * The start-repo executor: scopes of the workspace, launch options    *)
(* ===================================================================== *)

Module Workspace.
Import StartRepo.

(** [name.startsWith('@')] *)
Definition isNpmScopeName (name : string) : bool :=
  match name with
  | String c _ => Ascii.eqb c "@"
  | EmptyString => false
  end.

(** [name.split('/')[0]]: the name up to its first slash, all of it when it
    has none. *)
Fixpoint before_slash (name : string) : string :=
  match name with
  | EmptyString => EmptyString
  | String c rest => if Ascii.eqb c "/" then EmptyString else String c (before_slash rest)
  end.

(** [s.substring(1)] *)
Definition substring_1 (s : string) : string :=
  match s with
  | EmptyString => EmptyString
  | String _ rest => rest
  end.

(** [getNpmScopeFromName]; [None] is [null]. *)
Definition getNpmScopeFromName (name : string) : option string :=
  if negb (isNpmScopeName name) then None
  else Some (substring_1 (before_slash name)).

(** What is found at the path of a manifest: no file, or a manifest with
    its [name] member (which a manifest may lack). *)
Inductive manifest_file : Type :=
  | no_file
  | manifest_named (name : option string).

Inductive scope_error : Type :=
  | TypeError.          (* [name.startsWith] on a name that is undefined *)

(** [getPackageJsonScopeIfExists] *)
Definition getPackageJsonScopeIfExists (file : manifest_file)
  : result scope_error (option string) :=
  match file with
  | no_file => Ok None
  | manifest_named None => Throw TypeError
  | manifest_named (Some name) =>
      match getNpmScopeFromName name with
      | Some "" | None => Ok None       (* [|| null] *)
      | Some scope => Ok (Some scope)
      end
  end.

Record project_node : Type := {
  node_is_lib : bool;                 (* node.type === 'lib' *)
  node_manifest : manifest_file;      (* the package.json under node.data.root *)
}.

(** [fs.existsSync(nodePackageJsonPath)] *)
Definition isNodeWithPackageJson (node : project_node) : bool :=
  match node_manifest node with no_file => false | manifest_named _ => true end.

Definition isLibNodeWithPackageJson (node : project_node) : bool :=
  node_is_lib node && isNodeWithPackageJson node.

(** [array.map(f)] for an [f] that may throw. *)
Fixpoint map_result {E A B} (f : A → result E B) (l : list A) : result E (list B) :=
  match l with
  | [] => Ok []
  | x :: rest =>
      let* y := f x in
      let* ys := map_result f rest in
      Ok (y :: ys)
  end.

Definition getNpmScopesFromProjectNodes (projectNodes : list project_node)
  : result scope_error (list (option string)) :=
  let libNodes := filter (λ node, isLibNodeWithPackageJson node = true) projectNodes in
  map_result (λ node, getPackageJsonScopeIfExists (node_manifest node)) libNodes.

Definition removeDuplicates (arr : list string) : list string := Bundle.set_spread arr.

Section trimmed.

(** [String.prototype.trim] *)
Variable trim : string → string.

(** [scopes.filter((s) => Boolean(s?.trim()))]: the entries that are
    strings and are not empty once trimmed. *)
Definition removeEmptyString (scopes : list (option string)) : list string :=
  omap (λ s, match s with
             | Some str => if String.eqb (trim str) "" then None else Some str
             | None => None
             end) scopes.

Definition removeDuplicatesAndEmptyScopes (scopes : list (option string)) : list string :=
  let filtered := removeEmptyString scopes in
  removeDuplicates filtered.

(** [getWorkspaceNpmScopes], from the nodes of the project graph and the
    manifest at the root of the workspace. *)
Definition getWorkspaceNpmScopes (projectNodes : list project_node)
    (rootManifest : manifest_file) : result scope_error (list string) :=
  let* projectScopes := getNpmScopesFromProjectNodes projectNodes in
  let* rootScope := getPackageJsonScopeIfExists rootManifest in
  Ok (removeDuplicatesAndEmptyScopes (projectScopes ++ [rootScope])).

End trimmed.


End Workspace.

(* ===================================================================== *)
(** * The start-repo executor: what a session leaves in the files         *)
(* ===================================================================== *)

Module Session.
Import StartRepo.

(** The key of the configuration files a command writes, and what it
    leaves there. *)
Definition command_key (c : npm_command) : location * string :=
  (snd (target c), fst (target c)).

Definition command_writes (c : npm_command) : option string :=
  match c with
  | config_delete _ _ => None
  | config_set _ v _ => Some v
  end.

(** The calls [configureNpm] makes on the manager. *)
Definition configureNpm_calls (npmRegistryConfig : list NpmRegistryConfigItem)
    (registryConfig : LocalRegistrySettings) (loc : location)
  : list (string * value * location) :=
  map (λ item, (key item, Some (registry registryConfig), loc)) npmRegistryConfig
  ++ [(authTokenKey registryConfig, Some (authTokenValue registryConfig), loc)].

(** What [restoreAll] needs of a key to bring it back to its value in
    [files]: if the key has a snapshot, the snapshot is the value [files]
    has, and it is not the empty string; if it has none, the key is as in
    [files]. *)
Definition restorable_at (files : gmap (location * string) string)
    (name : string) (loc : location) (s : state) : Prop :=
  match captured name loc s with
  | None => npmrc s !! (loc, name) = files !! (loc, name)
  | Some x => x = files !! (loc, name) ∧ x ≠ Some ""
  end.

End Session.

(* ===================================================================== *)
(** * The publish script  (tools/scripts/publish.mjs)                     *)
(* ===================================================================== *)

Module Publish.

(** [s.endsWith(suffix)]: some tail of [s] is [suffix]. *)
Fixpoint endsWith (s suffix : string) : bool :=
  String.eqb s suffix
  || match s with
     | EmptyString => false
     | String _ rest => endsWith rest suffix
     end.

(** The version written to [package.json] and published, [tag] being
    ["dev"] in the script. *)
Definition devVersion (tag version : string) : string :=
  if endsWith version ("-" +:+ tag) then version else version +:+ "-" +:+ tag.

End Publish.

(* ===================================================================== *)
(** * More sample surroundings                                            *)
(* ===================================================================== *)

Module Scenario.

(** A destination that declares nothing yet. *)
Definition fresh_project : Bundle.ProjectInfoPlusPlus :=
  {| Bundle.publishPackageJson :=
       {| Bundle.pj_dependencies := None;
          Bundle.pj_devDependencies := None;
          Bundle.pj_peerDependencies := None;
          Bundle.pj_optionalDependencies := None;
          Bundle.pj_bundleDependencies := None |};
     Bundle.publishPackageJsonPath := "publish/package.json";
     Bundle.publishNodeModulesPath := "publish/node_modules";
     Bundle.info_libDeps := [Sample.acme_ui];
     Bundle.info_npmDeps := [Sample.lodash_new] |}.

(** A destination that declares both dependencies already, one of them as
    a peer dependency. *)
Definition declared_project : Bundle.ProjectInfoPlusPlus :=
  {| Bundle.publishPackageJson :=
       {| Bundle.pj_dependencies := Some {["lodash" := Some "4.17.0"]};
          Bundle.pj_devDependencies := None;
          Bundle.pj_peerDependencies := Some {["@acme/ui" := Some "^1.0.0"]};
          Bundle.pj_optionalDependencies := None;
          Bundle.pj_bundleDependencies := None |};
     Bundle.publishPackageJsonPath := "publish/package.json";
     Bundle.publishNodeModulesPath := "publish/node_modules";
     Bundle.info_libDeps := [Sample.acme_ui];
     Bundle.info_npmDeps := [Sample.lodash_new] |}.

(** A library whose build target lists no output. *)
Definition unbuilt : Bundle.BundableLibDependency :=
  {| Bundle.lib_projectName := "core"; Bundle.lib_packageName := "@acme/core";
     Bundle.lib_validPackageName := true; Bundle.lib_isScoped := false;
     Bundle.lib_distPath := None; Bundle.lib_npmDeps := [] |}.

Definition unbuilt_project : Bundle.ProjectInfoPlusPlus :=
  {| Bundle.publishPackageJson := Bundle.publishPackageJson fresh_project;
     Bundle.publishPackageJsonPath := "publish/package.json";
     Bundle.publishNodeModulesPath := "publish/node_modules";
     Bundle.info_libDeps := [unbuilt];
     Bundle.info_npmDeps := [] |}.

(** The manifest the merger writes for [Sample.project] on [Sample.disk],
    and the disk it leaves. *)
Definition merged_manifest : Bundle.Manifest :=
  {| Bundle.dependencies := {["lodash" := Some "4.17.0"; "@acme/ui" := Some "1.2.3"]};
     Bundle.devDependencies := ∅; Bundle.peerDependencies := ∅;
     Bundle.optionalDependencies := ∅;
     Bundle.bundleDependencies := ["@acme/ui"] |}.

Definition merged_disk : Sample.world :=
  ([("dist/libs/ui", Sample.acme_ui_dist);
    ("publish/node_modules/@acme/ui", Sample.acme_ui_dist)], []).

(** A source tree and a destination that has a file of its own. *)
Definition source_tree : Fs.node :=
  Fs.Dir [("package.json", Fs.File ["1"%byte]);
          ("src", Fs.Dir [("index.js", Fs.File []); ("empty", Fs.Dir [])])].

Definition destination_tree : Fs.node :=
  Fs.Dir [("README.md", Fs.File ["r"%byte]); ("package.json", Fs.File ["0"%byte])].

(** A workspace of one scoped library, one library without a scope, an
    application, and a library without a manifest. *)
Definition workspace_nodes : list Workspace.project_node :=
  [ {| Workspace.node_is_lib := true;
       Workspace.node_manifest := Workspace.manifest_named (Some "@acme/ui") |};
    {| Workspace.node_is_lib := true;
       Workspace.node_manifest := Workspace.manifest_named (Some "tools") |};
    {| Workspace.node_is_lib := false;
       Workspace.node_manifest := Workspace.manifest_named (Some "@apps/shop") |};
    {| Workspace.node_is_lib := true; Workspace.node_manifest := Workspace.no_file |} ].

(** A library whose manifest has no name. *)
Definition nameless_node : Workspace.project_node :=
  {| Workspace.node_is_lib := true;
     Workspace.node_manifest := Workspace.manifest_named None |}.

(** [trim] on names that have no white space. *)
Definition trim : string → string := λ s, s.

(** The options of a run at the user's location on port 4873. *)
Definition options : StartRepo.StartRepoExecutorSchema :=
  {| StartRepo.options_location := Some "user"; StartRepo.options_port := 4873 |}.

(** What the configuration files hold, and the configuration read from
    them. *)
Definition files : gmap (StartRepo.location * string) string :=
  {[ (Some "user", "registry") := "https://npm.acme.test/";
     (Some "project", "@acme:registry") := "https://npm.acme.test/" ]}.

Definition conf : string → StartRepo.location → StartRepo.value :=
  λ name loc, files !! (loc, name).

(** [execSync] fails on the first command given to it after a [kill]. *)
Definition fails_after_kill : list StartRepo.event → StartRepo.npm_command → bool :=
  λ trace _,
    match last trace with
    | Some (StartRepo.Kill _) => true
    | _ => false
    end.

End Scenario.

(* ===================================================================== *)
(** * Theorems                                                            *)
(* ===================================================================== *)

Section folder_copier.
Import Fs.

Lemma node_nested_ind (P : node → Prop) :
  (∀ data, P (File data)) →
  (∀ es, Forall (λ e, P (snd e)) es → P (Dir es)) →
  ∀ n, P n.
Proof.
  intros HF HD. fix IH 1. intros [data|es]; [apply HF|].
  apply HD. induction es as [|[x c] es IHes]; constructor; [apply IH | apply IHes].
Qed.

Lemma copyFolderSync_Dir entries to :
  copyFolderSync (Dir entries) to =
  let* dst0 := ensureDirectory to in
  let* dst := forEach copy_entry entries dst0 in
  Ok (Dir dst).
Proof. reflexivity. Qed.

Lemma dir_lookup_put_eq name c es : dir_lookup name (dir_put name c es) = Some c.
Proof.
  induction es as [|[n c0] es IH]; simpl.
  - by rewrite String.eqb_refl.
  - destruct (String.eqb n name) eqn:E; simpl; rewrite E; [done | apply IH].
Qed.

Lemma dir_lookup_put_ne name name' c es :
  name ≠ name' → dir_lookup name' (dir_put name c es) = dir_lookup name' es.
Proof.
  intros Hne. induction es as [|[n c0] es IH]; simpl.
  - apply String.eqb_neq in Hne. by rewrite Hne.
  - destruct (String.eqb n name) eqn:E; simpl.
    + apply String.eqb_eq in E as ->. apply String.eqb_neq in Hne. by rewrite Hne.
    + by rewrite IH.
Qed.

Lemma dir_lookup_None name es : name ∉ map fst es → dir_lookup name es = None.
Proof.
  induction es as [|[n c] es IH]; simpl; [done|]. intros Hn.
  destruct (String.eqb n name) eqn:E.
  - apply String.eqb_eq in E. subst n. exfalso. apply Hn, elem_of_cons. by left.
  - apply IH. intros Hin. apply Hn, elem_of_cons. by right.
Qed.

Lemma copy_entry_other element c dst dst' name :
  copy_entry element c dst = Ok dst' → element ≠ name →
  dir_lookup name dst' = dir_lookup name dst.
Proof.
  intros H Hne. destruct c as [data|sub]; unfold copy_entry in H.
  - unfold copyFileSync in H.
    destruct (dir_lookup element dst) as [[?|?]|]; inversion H; subst;
      by apply dir_lookup_put_ne.
  - destruct (copyFolderSync (Dir sub) (dir_lookup element dst)); inversion H; subst.
    by apply dir_lookup_put_ne.
Qed.

Lemma copy_entry_same element c dst dst' :
  copy_entry element c dst = Ok dst' →
  entry_after (Some c) (dir_lookup element dst) (dir_lookup element dst').
Proof.
  intros H. destruct c as [data|sub]; unfold copy_entry in H; unfold entry_after.
  - unfold copyFileSync in H.
    destruct (dir_lookup element dst) as [[?|?]|] eqn:E; inversion H; subst;
      rewrite dir_lookup_put_eq; by split.
  - destruct (copyFolderSync (Dir sub) (dir_lookup element dst)) as [d|] eqn:E;
      inversion H; subst.
    exists d. by rewrite dir_lookup_put_eq.
Qed.

Lemma forEach_lookup es :
  NoDup (map fst es) →
  ∀ dst dst', forEach copy_entry es dst = Ok dst' →
  ∀ name, entry_after (dir_lookup name es) (dir_lookup name dst) (dir_lookup name dst').
Proof.
  induction es as [|[n c] es IH]; intros Hnd dst dst' H name; simpl in *.
  - by inversion H.
  - apply NoDup_cons in Hnd as [Hn Hnd].
    destruct (copy_entry n c dst) as [dst1|] eqn:E1; simpl in H; [|done].
    specialize (IH Hnd _ _ H).
    destruct (String.eqb n name) eqn:E.
    + apply String.eqb_eq in E as ->.
      pose proof (IH name) as IHn. rewrite (dir_lookup_None _ _ Hn) in IHn.
      simpl in IHn. rewrite IHn. by apply copy_entry_same.
    + apply String.eqb_neq in E.
      rewrite <- (copy_entry_other _ _ _ _ _ E1 E). apply IH.
Qed.

Lemma dir_lookup_wf name es c :
  forallb (λ e, wf_node (snd e)) es = true → dir_lookup name es = Some c →
  wf_node c = true ∧ (name, c) ∈ es.
Proof.
  induction es as [|[n c0] es IH]; simpl; [done|].
  intros [H1 H2]%andb_prop Hl. destruct (String.eqb n name) eqn:E.
  - apply String.eqb_eq in E as ->. inversion Hl; subst. split; [done | left].
  - destruct (IH H2 Hl). split; [done | by right].
Qed.

(** After a copy that did not fail, the file at each relative path of the
    destination is the source's file at that path when there is one, and
    otherwise whatever the destination held there before. *)
Lemma copyFolderSync_file_at from :
  wf_node from = true →
  ∀ to d', copyFolderSync from to = Ok d' →
  ∀ p, file_at p d' =
       match file_at p from with
       | Some data => Some data
       | None => file_at_opt p to
       end.
Proof.
  induction from as [data|es IH] using node_nested_ind; intros Hwf to d' H p; [done|].
  simpl in Hwf. apply andb_prop in Hwf as [Hnd Hwf]. apply bool_decide_eq_true in Hnd.
  rewrite copyFolderSync_Dir in H.
  destruct (ensureDirectory to) as [dst0|] eqn:E0; simpl in H; [|done].
  destruct (forEach copy_entry es dst0) as [dst|] eqn:E1; inversion H; subst; clear H.
  assert (Hto : ∀ x p', file_at_opt (x :: p') to =
                        match dir_lookup x dst0 with Some c => file_at p' c | None => None end).
  { intros x p'. destruct to as [[?|?]|]; inversion E0; subst; done. }
  destruct p as [|x p'].
  { simpl. destruct to as [[?|?]|]; inversion E0; done. }
  rewrite Hto. simpl.
  pose proof (forEach_lookup es Hnd _ _ E1 x) as Hx.
  destruct (dir_lookup x es) as [[data|sub]|] eqn:Ex; simpl in Hx.
  - destruct Hx as [-> Hno]. destruct p' as [|y p']; [done|]. simpl.
    destruct (dir_lookup x dst0) as [[?|?]|]; [done | by destruct (Hno entries) | done].
  - destruct Hx as (d & Hd & ->).
    destruct (dir_lookup_wf _ _ _ Hwf Ex) as [Hwfc Hin].
    rewrite Forall_forall in IH. specialize (IH _ Hin Hwfc _ _ Hd p'). simpl in IH.
    rewrite IH. destruct (dir_lookup x dst0); done.
  - by rewrite Hx.
Qed.

Example copy_into_nothing :
  copyFolderSync (Dir [("a.txt", File ["a"%byte]); ("sub", Dir [("b", File [])])]) None
  = Ok (Dir [("a.txt", File ["a"%byte]); ("sub", Dir [("b", File [])])]).
Proof. reflexivity. Qed.

Example copy_over_directory :
  copyFolderSync (Dir [("sub", File ["a"%byte])]) (Some (Dir [("sub", Dir [])]))
  = Throw (CopyError "sub").
Proof. reflexivity. Qed.

Example copy_over_file :
  copyFolderSync (Dir [("sub", Dir [])]) (Some (Dir [("sub", File [])])) = Throw EEXIST.
Proof. reflexivity. Qed.

(** C9, as stated, fails: a destination that is already there keeps the
    files the source does not have, so the two sets of relative paths
    differ after a copy that did not fail. *)
Lemma copyFolderSync_keeps_other_files :
  let D := Dir [("a.txt", File ["a"%byte])] in
  let D' := Dir [("b.txt", File ["b"%byte])] in
  ∃ after, copyFolderSync D (Some D') = Ok after
           ∧ file_at ["b.txt"] after = Some ["b"%byte]
           ∧ file_at ["b.txt"] D = None.
Proof. eexists. repeat split. Qed.

(** C9 (amended).  After [copyFolderSync(D, D')] returned, every file of
    [D] is at the same relative path under [D'] with the same bytes; and when
    [D'] was absent, or held no file, before the copy, the files under [D']
    are exactly those of [D], path by path. *)
Theorem copyFolderSync_replicates (D : node) (D' : option node) (after : node) :
  wf_node D = true →
  copyFolderSync D D' = Ok after →
  (∀ p data, file_at p D = Some data → file_at p after = Some data)
  ∧ ((∀ p, file_at_opt p D' = None) → ∀ p, file_at p after = file_at p D).
Proof.
  intros Hwf Hcopy.
  pose proof (copyFolderSync_file_at D Hwf D' after Hcopy) as Hfiles. split.
  - intros p data Hp. by rewrite Hfiles, Hp.
  - intros Hempty p. rewrite Hfiles, Hempty. by destruct (file_at p D).
Qed.

Lemma copyFolderSync_replicates_witness :
  let D := Dir [("package.json", File ["1"%byte]); ("src", Dir [("index.js", File [])])] in
  let D' := Dir [("old", Dir [])] in
  let after := Dir [("old", Dir []); ("package.json", File ["1"%byte]);
                    ("src", Dir [("index.js", File [])])] in
  (∀ p data, file_at p D = Some data → file_at p after = Some data)
  ∧ ((∀ p, file_at_opt p (Some D') = None) → ∀ p, file_at p after = file_at p D).
Proof.
  intros D D' after. apply (copyFolderSync_replicates D (Some D') after); reflexivity.
Defined.

End folder_copier.

Section dependency_classifier.
Import Bundle.

Example isScoped_samples :
  isScoped "@acme/ui" = true ∧ isScoped "ui" = false ∧ isScoped "@a/b" = false
  ∧ isScoped "@Acme.x/U-i_2" = true ∧ isScoped "@acme/ui/x" = false.
Proof. repeat split. Qed.

Example split_second_samples :
  split_second "npm:" "npm:tslib" = Some "tslib"
  ∧ split_second "npm:" "tslib" = None
  ∧ split_second "npm:" "a npm:b npm:c" = Some "b ".
Proof. repeat split. Qed.

Example set_spread_sample : set_spread ["a"; "b"; "a"; "c"; "b"] = ["a"; "b"; "c"].
Proof. reflexivity. Qed.

(** The scenario of the specification: one library [@acme/ui] and one
    external package [lodash], declared at 4.17.21 in the root manifest. *)
Example getProjectDependencies_scenario :
  let ui := {| dep_name := "@acme/ui"; dep_outputs := ["dist/libs/ui"];
               dep_node := {| node_type_of := lib; node_name := "ui";
                              node_packageName := "" |} |} in
  let lodash := {| dep_name := "npm:lodash"; dep_outputs := [];
                   dep_node := {| node_type_of := npm; node_name := "npm:lodash";
                                  node_packageName := "lodash" |} |} in
  getProjectDependencies Sample.no_capitals [ui; lodash] [] []
                         {["lodash" := "4.17.21"]}
  = {| libDeps := [{| lib_projectName := "ui"; lib_packageName := "@acme/ui";
                      lib_validPackageName := true; lib_isScoped := false;
                      lib_distPath := Some "dist/libs/ui"; lib_npmDeps := [] |}];
       npmDeps := [{| npm_packageName := "lodash"; npm_version := Some "4.17.21" |}] |}.
Proof. reflexivity. Qed.

End dependency_classifier.

Section manifest_merger.
Import Bundle.

Context {World : Type}.
Variable tree_at : string → World → option Fs.node.
Variable put_tree : string → Fs.node → World → World.
Variable version_at : string → World → option string.

Local Abbreviation copyFolderSync := (Bundle.copyFolderSync World tree_at put_tree).
Local Abbreviation merge_lib := (Bundle.merge_lib World tree_at put_tree version_at).
Local Abbreviation merge_libs := (Bundle.merge_libs World tree_at put_tree version_at).
Local Abbreviation merged := (Bundle.merged World tree_at put_tree version_at).
Local Abbreviation bundled_by := (Bundle.bundled_by World tree_at put_tree version_at).

Lemma hasDependency_true pj n : hasDependency pj n = true ↔ n ∈ depNames pj.
Proof. unfold hasDependency. apply bool_decide_eq_true. Qed.

Lemma hasDependency_false pj n : hasDependency pj n = false ↔ n ∉ depNames pj.
Proof. unfold hasDependency. apply bool_decide_eq_false. Qed.

Lemma depNames_set_dependency d pj :
  depNames (set_dependency d pj) = {[npm_packageName d]} ∪ depNames pj.
Proof. unfold depNames. simpl. rewrite dom_insert_L. set_solver. Qed.

Lemma depNames_push_bundled n pj : depNames (push_bundled n pj) = depNames pj.
Proof. reflexivity. Qed.

Lemma depNames_addDependency d dest pj :
  depNames (addDependency d dest pj) = {[npm_packageName d]} ∪ depNames pj.
Proof. destruct dest; simpl; by rewrite depNames_set_dependency. Qed.

Lemma lookup_dependency_depNames pj n v : dependencies pj !! n = Some v → n ∈ depNames pj.
Proof.
  intros H. unfold depNames. apply elem_of_union_l, elem_of_union_l, elem_of_union_l.
  apply elem_of_dom. by exists v.
Qed.

Lemma merge_npm_spec d pj :
  let pj' := merge_npm d pj in
  devDependencies pj' = devDependencies pj
  ∧ peerDependencies pj' = peerDependencies pj
  ∧ optionalDependencies pj' = optionalDependencies pj
  ∧ bundleDependencies pj' = bundleDependencies pj
  ∧ depNames pj ⊆ depNames pj'
  ∧ ∀ n, n ∈ depNames pj → dependencies pj' !! n = dependencies pj !! n.
Proof.
  unfold merge_npm.
  destruct (hasDependency pj (npm_packageName d)) eqn:Hhas; [done|].
  apply hasDependency_false in Hhas. cbv zeta.
  rewrite depNames_addDependency. simpl. repeat split; try done.
  - set_solver.
  - intros n Hn. apply lookup_insert_ne. intros Heq. by rewrite Heq in Hhas.
Qed.

Lemma merge_npms_cons d npms pj :
  merge_npms (d :: npms) pj = merge_npms npms (merge_npm d pj).
Proof. reflexivity. Qed.

(** What the pass over the npm dependencies changes: only [dependencies],
    and there only names no map had. *)
Lemma merge_npms_spec npms : ∀ pj,
  let pj' := merge_npms npms pj in
  devDependencies pj' = devDependencies pj
  ∧ peerDependencies pj' = peerDependencies pj
  ∧ optionalDependencies pj' = optionalDependencies pj
  ∧ bundleDependencies pj' = bundleDependencies pj
  ∧ depNames pj ⊆ depNames pj'
  ∧ ∀ n, n ∈ depNames pj → dependencies pj' !! n = dependencies pj !! n.
Proof.
  induction npms as [|d npms IH]; intros pj; [done|].
  cbv zeta. rewrite merge_npms_cons.
  destruct (IH (merge_npm d pj)) as (Hd & Hp & Ho & Hb & Hsub & Hkeep).
  destruct (merge_npm_spec d pj) as (Hd' & Hp' & Ho' & Hb' & Hsub' & Hkeep').
  repeat split; try congruence.
  - set_solver.
  - intros n Hn. rewrite Hkeep by set_solver. by apply Hkeep'.
Qed.

Lemma merge_libs_cons nm dependency libs st :
  merge_libs nm (dependency :: libs) st =
  let* st' := merge_lib nm dependency st in merge_libs nm libs st'.
Proof. reflexivity. Qed.

Lemma merge_libs_spec nm libs : ∀ pj w pj' w',
  merge_libs nm libs (pj, w) = Ok (pj', w') →
  devDependencies pj' = devDependencies pj
  ∧ peerDependencies pj' = peerDependencies pj
  ∧ optionalDependencies pj' = optionalDependencies pj
  ∧ depNames pj ⊆ depNames pj'
  ∧ (∀ n, n ∈ depNames pj → dependencies pj' !! n = dependencies pj !! n)
  ∧ ∃ added, bundleDependencies pj' = bundleDependencies pj ++ added
             ∧ ∀ n, n ∈ added → bundled_by nm libs pj pj' n.
Proof.
  induction libs as [|dependency libs IH]; intros pj w pj' w' H.
  - inversion H; subst. repeat split; try done. exists []. split.
    + by rewrite app_nil_r.
    + intros n Hn. by apply elem_of_nil in Hn.
  - rewrite merge_libs_cons in H.
    destruct (merge_lib nm dependency (pj, w)) as [[pj1 w1]|] eqn:E1; simpl in H; [|done].
    destruct (IH _ _ _ _ H) as (Hd & Hp & Ho & Hsub & Hkeep & added & Hb & Hadded).
    unfold Bundle.merge_lib in E1.
    destruct (hasDependency pj (lib_packageName dependency)) eqn:Hhas.
    + inversion E1; subst. repeat split; try done. exists added. split; [done|].
      intros n Hn. destruct (Hadded n Hn) as (Hfresh & l & wa & wb & Hin & Hrest).
      split; [done|]. exists l, wa, wb. split; [by right | done].
    + apply hasDependency_false in Hhas.
      set (to := join nm (lib_packageName dependency)) in *.
      destruct (copyFolderSync (lib_distPath dependency) to w) as [w2|] eqn:Ecopy;
        simpl in E1; [|done].
      inversion E1; subst pj1 w1; clear E1.
      rewrite depNames_set_dependency in Hsub, Hkeep. simpl in *.
      repeat split; try done.
      * set_solver.
      * intros n Hn. rewrite Hkeep by set_solver. simpl.
        apply lookup_insert_ne. intros Heq. by rewrite Heq in Hhas.
      * exists (lib_packageName dependency :: added). split.
        { rewrite Hb. by rewrite <- app_assoc. }
        intros n [->|Hn]%elem_of_cons.
        { split; [done|]. exists dependency, w, w2.
          split; [by left|]. split; [done|]. split; [done|].
          rewrite Hkeep by set_solver. simpl. apply lookup_insert_eq. }
        destruct (Hadded n Hn) as (Hfresh & l & wa & wb & Hin & Hrest).
        split.
        { intros Hin'. apply Hfresh. rewrite depNames_set_dependency. set_solver. }
        exists l, wa, wb. split; [by right | done].
Qed.

(** What the merger has built when it writes the manifest. *)
Lemma merged_spec projectInfo w pj' w' :
  merged projectInfo w = Ok (pj', w') →
  let pj := with_defaults (publishPackageJson projectInfo) in
  devDependencies pj' = devDependencies pj
  ∧ peerDependencies pj' = peerDependencies pj
  ∧ optionalDependencies pj' = optionalDependencies pj
  ∧ (∀ n, n ∈ depNames pj → dependencies pj' !! n = dependencies pj !! n)
  ∧ ∃ added, bundleDependencies pj' = bundleDependencies pj ++ added
             ∧ ∀ n, n ∈ added →
                    bundled_by (publishNodeModulesPath projectInfo)
                               (info_libDeps projectInfo) pj pj' n.
Proof.
  intros H pj. unfold Bundle.merged in H. fold pj in H.
  destruct (merge_libs _ _ _) as [[pj1 w1]|] eqn:E; simpl in H; [|done].
  inversion H; subst; clear H.
  destruct (merge_libs_spec _ _ _ _ _ _ E) as (Hd & Hp & Ho & Hsub & Hkeep & added & Hb & Hadded).
  destruct (merge_npms_spec (info_npmDeps projectInfo) pj1) as (Hd' & Hp' & Ho' & Hb' & Hsub' & Hkeep').
  simpl in *.
  repeat split; try congruence.
  - intros n Hn. rewrite Hkeep' by set_solver. by apply Hkeep.
  - exists added. split; [congruence|]. intros n Hn.
    destruct (Hadded n Hn) as (Hfresh & l & wa & wb & Hin & Hname & Hcopy & Hv).
    split; [done|]. exists l, wa, wb. repeat split; try done.
    rewrite Hkeep'; [done|]. by eapply lookup_dependency_depNames.
Qed.

Section with_classifier.

Variable validForNewPackages : string → bool.

Lemma libDeps_valid dependencies topLevelDependencies helperDependencies rootNpmDeps l :
  l ∈ libDeps (getProjectDependencies validForNewPackages dependencies
                 topLevelDependencies helperDependencies rootNpmDeps) →
  validForNewPackages (lib_packageName l) = true.
Proof.
  unfold getProjectDependencies. simpl.
  intros [Hvalid Hin]%list_elem_of_filter.
  apply list_elem_of_fmap in Hin as (d & -> & _). done.
Qed.

(** C7 (amended).  A library dependency whose package name fails the
    validation is in no entry of the classifier's lib-deps, and the merger,
    given these lib-deps, does not push its name on [bundleDependencies]:
    the name is in the written list only as often as the destination
    manifest listed it before. *)
Theorem invalid_library_is_never_bundled
    (dependencies topLevelDependencies : list DependentBuildableProjectNode)
    (helperDependencies : list string) (rootNpmDeps : gmap string string)
    (dep : DependentBuildableProjectNode) :
  validForNewPackages (dep_name dep) = false →
  let classified := getProjectDependencies validForNewPackages dependencies
                      topLevelDependencies helperDependencies rootNpmDeps in
  (∀ l, l ∈ libDeps classified → lib_packageName l ≠ dep_name dep)
  ∧ ∀ projectInfo w w' pj',
      info_libDeps projectInfo = libDeps classified →
      merged projectInfo w = Ok (pj', w') →
      ∃ added,
        bundleDependencies pj'
          = bundleDependencies (with_defaults (publishPackageJson projectInfo)) ++ added
        ∧ dep_name dep ∉ added.
Proof.
  intros Hbad classified.
  assert (Hout : ∀ l, l ∈ libDeps classified → lib_packageName l ≠ dep_name dep).
  { intros l Hl Heq. apply libDeps_valid in Hl. congruence. }
  split; [done|]. intros projectInfo w w' pj' Hlibs Hm.
  destruct (merged_spec _ _ _ _ Hm) as (_ & _ & _ & _ & added & Hb & Hadded).
  exists added. split; [done|]. intros Hin.
  destruct (Hadded _ Hin) as (_ & l & _ & _ & Hl & Hname & _).
  rewrite Hlibs in Hl. by apply (Hout l).
Qed.

End with_classifier.

Variable writeJsonFile : string → Manifest → World → World.

Local Abbreviation updateDependencies2 :=
  (Bundle.updateDependencies2 World tree_at put_tree version_at writeJsonFile).

Example merged_sample :
  Bundle.merged Sample.world Sample.tree_at Sample.put_tree Sample.version_at
                Sample.project Sample.disk
  = Ok ({| dependencies := {["lodash" := Some "4.17.0"; "@acme/ui" := Some "1.2.3"]};
           devDependencies := ∅; peerDependencies := ∅; optionalDependencies := ∅;
           bundleDependencies := ["@acme/ui"] |},
        ([("dist/libs/ui", Sample.acme_ui_dist);
          ("publish/node_modules/@acme/ui", Sample.acme_ui_dist)], [])).
Proof. vm_compute. reflexivity. Qed.

(** C1.  A package name that is a key of [dependencies],
    [peerDependencies], [optionalDependencies] or [devDependencies] of the
    destination manifest keeps, in the manifest the merger writes, the very
    entry it had in each of the four maps, and is not among the names the
    merger pushes on [bundleDependencies]: a library or npm dependency of
    that name is neither added again nor overwrites the entry. *)
Theorem merger_keeps_existing_entries (projectInfo : ProjectInfoPlusPlus)
    (w w' : World) (pj' : Manifest) (n : string) :
  hasDependency (with_defaults (publishPackageJson projectInfo)) n = true →
  merged projectInfo w = Ok (pj', w') →
  let pj := with_defaults (publishPackageJson projectInfo) in
  updateDependencies2 projectInfo w
    = Ok (true, writeJsonFile (publishPackageJsonPath projectInfo) pj' w')
  ∧ dependencies pj' !! n = dependencies pj !! n
  ∧ peerDependencies pj' !! n = peerDependencies pj !! n
  ∧ optionalDependencies pj' !! n = optionalDependencies pj !! n
  ∧ devDependencies pj' !! n = devDependencies pj !! n
  ∧ ∃ added, bundleDependencies pj' = bundleDependencies pj ++ added ∧ n ∉ added.
Proof.
  intros Hhas Hm pj. apply hasDependency_true in Hhas.
  destruct (merged_spec _ _ _ _ Hm) as (Hd & Hp & Ho & Hkeep & added & Hb & Hadded).
  fold pj in Hd, Hp, Ho, Hkeep, Hb, Hadded.
  split; [unfold Bundle.updateDependencies2; by rewrite Hm|].
  split; [by apply Hkeep|]. rewrite Hd, Hp, Ho. do 3 (split; [done|]).
  exists added. split; [done|]. intros Hin. by destruct (Hadded n Hin) as [Hfresh _].
Qed.

(** C3 (amended).  In the manifest a successful run writes, the names the
    merger itself pushed on [bundleDependencies] come after the entries the
    destination manifest already had; each of them is the package name of
    a library dependency whose folder was copied, and is a key of
    [dependencies] bound to the version read from the copied package's
    manifest (so in the written file the key carries that version, and is
    left out when the copy declares none).  Nothing is said of the entries
    that were there before. *)
Theorem merger_bundles_with_dependency (projectInfo : ProjectInfoPlusPlus)
    (w w' : World) (pj' : Manifest) :
  merged projectInfo w = Ok (pj', w') →
  let pj := with_defaults (publishPackageJson projectInfo) in
  let nm := publishNodeModulesPath projectInfo in
  updateDependencies2 projectInfo w
    = Ok (true, writeJsonFile (publishPackageJsonPath projectInfo) pj' w')
  ∧ ∃ added,
      bundleDependencies pj' = bundleDependencies pj ++ added
      ∧ ∀ n, n ∈ added →
          ∃ dependency w1 w2,
            dependency ∈ info_libDeps projectInfo
            ∧ lib_packageName dependency = n
            ∧ copyFolderSync (lib_distPath dependency) (join nm n) w1 = Ok w2
            ∧ let version := version_at (join (join nm n) "package.json") w2 in
              dependencies pj' !! n = Some version
              ∧ written (dependencies pj') !! n = version.
Proof.
  intros Hm pj nm.
  destruct (merged_spec _ _ _ _ Hm) as (_ & _ & _ & _ & added & Hb & Hadded).
  split; [unfold Bundle.updateDependencies2; by rewrite Hm|].
  exists added. split; [done|]. intros n Hn.
  destruct (Hadded n Hn) as (_ & l & wa & wb & Hin & Hname & Hcopy & Hv).
  exists l, wa, wb. repeat split; try done.
  unfold written. by rewrite lookup_omap, Hv.
Qed.


End manifest_merger.

Section manifest_merger_samples.
Import Bundle.

Lemma merger_keeps_existing_entries_witness :
  let pj := with_defaults (publishPackageJson Sample.project) in
  let pj' := {| dependencies := {["lodash" := Some "4.17.0"; "@acme/ui" := Some "1.2.3"]};
                devDependencies := ∅; peerDependencies := ∅; optionalDependencies := ∅;
                bundleDependencies := ["@acme/ui"] |} in
  let w' := ([("dist/libs/ui", Sample.acme_ui_dist);
              ("publish/node_modules/@acme/ui", Sample.acme_ui_dist)], []) in
  updateDependencies2 Sample.world Sample.tree_at Sample.put_tree Sample.version_at
      Sample.writeJsonFile Sample.project Sample.disk
    = Ok (true, Sample.writeJsonFile "publish/package.json" pj' w')
  ∧ dependencies pj' !! "lodash" = dependencies pj !! "lodash"
  ∧ peerDependencies pj' !! "lodash" = peerDependencies pj !! "lodash"
  ∧ optionalDependencies pj' !! "lodash" = optionalDependencies pj !! "lodash"
  ∧ devDependencies pj' !! "lodash" = devDependencies pj !! "lodash"
  ∧ ∃ added, bundleDependencies pj' = bundleDependencies pj ++ added ∧ "lodash" ∉ added.
Proof.
  intros pj pj' w'.
  apply (merger_keeps_existing_entries Sample.tree_at Sample.put_tree Sample.version_at
           Sample.writeJsonFile Sample.project Sample.disk w' pj' "lodash").
  - vm_compute. reflexivity.
  - vm_compute. reflexivity.
Defined.

Lemma merger_bundles_with_dependency_witness :
  let pj := with_defaults (publishPackageJson Sample.project) in
  let nm := publishNodeModulesPath Sample.project in
  let pj' := {| dependencies := {["lodash" := Some "4.17.0"; "@acme/ui" := Some "1.2.3"]};
                devDependencies := ∅; peerDependencies := ∅; optionalDependencies := ∅;
                bundleDependencies := ["@acme/ui"] |} in
  let w' := ([("dist/libs/ui", Sample.acme_ui_dist);
              ("publish/node_modules/@acme/ui", Sample.acme_ui_dist)], []) in
  updateDependencies2 Sample.world Sample.tree_at Sample.put_tree Sample.version_at
      Sample.writeJsonFile Sample.project Sample.disk
    = Ok (true, Sample.writeJsonFile "publish/package.json" pj' w')
  ∧ ∃ added,
      bundleDependencies pj' = bundleDependencies pj ++ added
      ∧ ∀ n, n ∈ added →
          ∃ dependency w1 w2,
            dependency ∈ info_libDeps Sample.project
            ∧ lib_packageName dependency = n
            ∧ copyFolderSync Sample.world Sample.tree_at Sample.put_tree
                (lib_distPath dependency) (join nm n) w1 = Ok w2
            ∧ let version := Sample.version_at (join (join nm n) "package.json") w2 in
              dependencies pj' !! n = Some version
              ∧ written (dependencies pj') !! n = version.
Proof.
  intros pj nm pj' w'.
  apply (merger_bundles_with_dependency Sample.tree_at Sample.put_tree Sample.version_at
           Sample.writeJsonFile Sample.project Sample.disk w' pj').
  vm_compute. reflexivity.
Defined.

(** C3, as stated, fails: an entry of [bundleDependencies] that the
    destination manifest already had is written back as it is, whether or
    not [dependencies] has it. *)
Lemma bundled_entry_without_dependency :
  let projectInfo :=
    {| publishPackageJson :=
         {| pj_dependencies := None; pj_devDependencies := None;
            pj_peerDependencies := None; pj_optionalDependencies := None;
            pj_bundleDependencies := Some ["left-pad"] |};
       publishPackageJsonPath := "publish/package.json";
       publishNodeModulesPath := "publish/node_modules";
       info_libDeps := []; info_npmDeps := [] |} in
  ∃ pj',
    updateDependencies2 Sample.world Sample.tree_at Sample.put_tree Sample.version_at
        Sample.writeJsonFile projectInfo Sample.empty_disk
      = Ok (true, ([], [("publish/package.json", pj')]))
    ∧ "left-pad" ∈ bundleDependencies pj'
    ∧ dependencies pj' !! "left-pad" = None.
Proof.
  eexists. split; [reflexivity|]. split; [vm_compute; by left | reflexivity].
Qed.

Lemma invalid_library_is_never_bundled_witness :
  let classified := getProjectDependencies Sample.no_capitals [Sample.My_Lib] [] [] ∅ in
  (∀ l, l ∈ libDeps classified → lib_packageName l ≠ "My_Lib")
  ∧ ∀ projectInfo w w' pj',
      info_libDeps projectInfo = libDeps classified →
      merged Sample.world Sample.tree_at Sample.put_tree Sample.version_at projectInfo w
        = Ok (pj', w') →
      ∃ added,
        bundleDependencies pj'
          = bundleDependencies (with_defaults (publishPackageJson projectInfo)) ++ added
        ∧ "My_Lib" ∉ added.
Proof.
  apply (invalid_library_is_never_bundled Sample.tree_at Sample.put_tree Sample.version_at
           Sample.no_capitals [Sample.My_Lib] [] [] ∅ Sample.My_Lib).
  reflexivity.
Defined.

(** C7, as stated, fails in its second half: the name of an invalid
    library is in the written [bundleDependencies] when the destination
    manifest listed it there before the run. *)
Lemma invalid_name_listed_before :
  let classified := getProjectDependencies Sample.no_capitals [Sample.My_Lib] [] [] ∅ in
  let projectInfo :=
    {| publishPackageJson :=
         {| pj_dependencies := None; pj_devDependencies := None;
            pj_peerDependencies := None; pj_optionalDependencies := None;
            pj_bundleDependencies := Some ["My_Lib"] |};
       publishPackageJsonPath := "publish/package.json";
       publishNodeModulesPath := "publish/node_modules";
       info_libDeps := libDeps classified; info_npmDeps := npmDeps classified |} in
  isLibNode Sample.My_Lib = true
  ∧ Sample.no_capitals (dep_name Sample.My_Lib) = false
  ∧ libDeps classified = []
  ∧ ∃ pj',
      updateDependencies2 Sample.world Sample.tree_at Sample.put_tree Sample.version_at
          Sample.writeJsonFile projectInfo Sample.empty_disk
        = Ok (true, ([], [("publish/package.json", pj')]))
      ∧ dep_name Sample.My_Lib ∈ bundleDependencies pj'.
Proof.
  repeat split. eexists. split; [reflexivity | vm_compute; by left].
Qed.

End manifest_merger_samples.

Section registry_configuration.
Import StartRepo.

(** Folding conditional insertions over items whose keys are all different:
    what is found under a key afterwards. *)
Lemma fold_insert_lookup {V} (kf : NpmRegistryConfigItem → string)
    (vf : NpmRegistryConfigItem → V) (items : list NpmRegistryConfigItem) :
  NoDup (map kf items) →
  ∀ (acc : gmap string V) (k : string),
    fold_left (λ acc item,
                 if negb (truthy (value_of item)) then acc
                 else <[kf item := vf item]> acc) items acc !! k
    = match find (λ item, bool_decide (kf item = k)) items with
      | Some item => if truthy (value_of item) then Some (vf item) else acc !! k
      | None => acc !! k
      end.
Proof.
  induction items as [|item items IH]; intros Hnd acc k; simpl; [done|].
  apply NoDup_cons in Hnd as [Hfresh Hnd]. rewrite (IH Hnd).
  destruct (bool_decide (kf item = k)) eqn:Hk.
  - apply bool_decide_eq_true in Hk. subst k.
    destruct (find _ items) as [item'|] eqn:Hfind.
    { apply find_some in Hfind as [Hin Heq]. apply bool_decide_eq_true in Heq.
      exfalso. apply Hfresh. rewrite <- Heq. apply list_elem_of_fmap.
      exists item'. split; [done|]. by apply list_elem_of_In. }
    destruct (truthy (value_of item)); simpl; [by rewrite lookup_insert_eq | done].
  - apply bool_decide_eq_false in Hk.
    assert (Hacc : (if negb (truthy (value_of item)) then acc
                    else <[kf item := vf item]> acc) !! k = acc !! k).
    { destruct (truthy (value_of item)); simpl; [by rewrite lookup_insert_ne | done]. }
    rewrite Hacc. done.
Qed.

Lemma find_by_key (kf : NpmRegistryConfigItem → string) items item :
  NoDup (map kf items) → item ∈ items →
  find (λ item', bool_decide (kf item' = kf item)) items = Some item.
Proof.
  induction items as [|x items IH]; intros Hnd Hin; [by apply elem_of_nil in Hin|].
  apply NoDup_cons in Hnd as [Hfresh Hnd]. simpl.
  apply elem_of_cons in Hin as [->|Hin].
  - by rewrite bool_decide_eq_true_2.
  - rewrite bool_decide_eq_false_2; [by apply IH|].
    intros Heq. apply Hfresh. rewrite Heq. apply list_elem_of_fmap. by exists item.
Qed.

(** C6, as stated, fails: a scope whose registry key has no value gets no
    package-routing rule (and no uplink). *)
Lemma no_rule_for_scope_without_registry :
  let acme := {| name := "acme"; key := "@acme:registry";
                 value_of := None; locationValue := None |} in
  let default := {| name := "npm"; key := "registry";
                    value_of := Some "https://registry.npmjs.org/"; locationValue := None |} in
  let config := createVerdaccioConfig [acme; default] in
  packageKey acme = "@acme/*"
  ∧ packages config !! "@acme/*" = None
  ∧ packages config !! "**"
    = Some {| access := "$all"; publish := "$all"; unpublish := "$all"; proxy := "npm" |}.
Proof. repeat split. Qed.

(** C6 (amended).  For registry-config items with distinct names and
    distinct package patterns, the generated configuration has, for every
    item whose effective value is non-empty, the uplink [name ↦ value] and
    the rule [pattern ↦ {access, publish, unpublish: $all, proxy: name}],
    where the pattern is [**] for the key [registry] and [@name/*]
    otherwise; an item whose value is empty or undefined gets neither an
    uplink nor a rule; and there is no other uplink and no other rule. *)
Theorem createVerdaccioConfig_entries (npmRegistryConfig : list NpmRegistryConfigItem) :
  NoDup (map name npmRegistryConfig) →
  NoDup (map packageKey npmRegistryConfig) →
  let config := createVerdaccioConfig npmRegistryConfig in
  (∀ item, item ∈ npmRegistryConfig →
     packageKey item = (if String.eqb (key item) "registry" then "**"
                        else "@" +:+ name item +:+ "/*")
     ∧ if truthy (value_of item)
       then uplinks config !! name item = value_of item
            ∧ packages config !! packageKey item
              = Some {| access := "$all"; publish := "$all"; unpublish := "$all";
                        proxy := name item |}
       else uplinks config !! name item = None
            ∧ packages config !! packageKey item = None)
  ∧ (∀ n url, uplinks config !! n = Some url →
       ∃ item, item ∈ npmRegistryConfig ∧ name item = n ∧ value_of item = Some url)
  ∧ (∀ pattern rule, packages config !! pattern = Some rule →
       ∃ item, item ∈ npmRegistryConfig ∧ packageKey item = pattern
               ∧ truthy (value_of item) = true ∧ proxy rule = name item).
Proof.
  intros Hnames Hkeys config.
  pose proof (fold_insert_lookup name (λ item, default "" (value_of item))
                npmRegistryConfig Hnames ∅) as Hup.
  pose proof (fold_insert_lookup packageKey
                (λ item, {| access := "$all"; publish := "$all"; unpublish := "$all";
                            proxy := name item |})
                npmRegistryConfig Hkeys ∅) as Hpk.
  split; [|split].
  - intros item Hin. split; [done|].
    unfold config, createVerdaccioConfig. cbn [uplinks packages].
    rewrite Hup, Hpk, !find_by_key by done.
    destruct (value_of item) as [url|] eqn:Hv; simpl; [|done].
    destruct (negb (String.eqb url "")); done.
  - intros n url. unfold config, createVerdaccioConfig. cbn [uplinks]. rewrite Hup.
    destruct (find _ _) as [item|] eqn:Hfind; [|done].
    apply find_some in Hfind as [Hin Hn]. apply bool_decide_eq_true in Hn.
    destruct (value_of item) as [u|] eqn:Hv; simpl; [|done].
    destruct (negb (String.eqb u "")); [|done].
    intros [= <-]. exists item. split; [by apply list_elem_of_In | done].
  - intros pattern rule. unfold config, createVerdaccioConfig. cbn [packages]. rewrite Hpk.
    destruct (find _ _) as [item|] eqn:Hfind; [|done].
    apply find_some in Hfind as [Hin Hn]. apply bool_decide_eq_true in Hn.
    destruct (truthy (value_of item)) eqn:Hv; [|done].
    intros [= <-]. exists item. split; [by apply list_elem_of_In | done].
Qed.

Lemma createVerdaccioConfig_entries_witness :
  let acme := {| name := "acme"; key := "@acme:registry";
                 value_of := Some "https://npm.acme.test/"; locationValue := None |} in
  let default := {| name := "npm"; key := "registry";
                    value_of := Some "https://registry.npmjs.org/"; locationValue := None |} in
  let config := createVerdaccioConfig [acme; default] in
  uplinks config !! "acme" = Some "https://npm.acme.test/"
  ∧ packages config !! "@acme/*"
    = Some {| access := "$all"; publish := "$all"; unpublish := "$all"; proxy := "acme" |}.
Proof.
  intros acme default config.
  assert (Hnames : NoDup (map name [acme; default])).
  { apply (bool_decide_unpack _). vm_compute. exact I. }
  assert (Hkeys : NoDup (map packageKey [acme; default])).
  { apply (bool_decide_unpack _). vm_compute. exact I. }
  destruct (createVerdaccioConfig_entries [acme; default] Hnames Hkeys) as (Hitems & _ & _).
  destruct (Hitems acme) as [_ Hacme]; [by left|]. exact Hacme.
Defined.

End registry_configuration.

Section registry_process.
Import StartRepo.

Lemma startVerdaccio_settled p events :
  p ≠ Pending → fold_left listener events p = p.
Proof.
  revert p. induction events as [|e events IH]; intros p Hp; simpl; [done|].
  destruct p; [done | by apply IH | by apply IH].
Qed.

(** The first report of the child settles the promise. *)
Lemma startVerdaccio_first e events :
  startVerdaccio (e :: events) = listener Pending e.
Proof.
  unfold startVerdaccio. simpl. apply startVerdaccio_settled.
  destruct e as [err| |code]; simpl; [done | done | by case_bool_decide].
Qed.

(** C5, as stated, fails in its last part: a disconnect (the channel to the
    child is closed, the child need not have ended) settles the promise, and
    the executor returns while the child has reported no exit. *)
Lemma returns_on_disconnect :
  awaited 4873 (startVerdaccio [on_disconnect]) = Some {| success := false; port := 4873 |}
  ∧ ∀ code, on_exit code ∉ [on_disconnect].
Proof.
  split; [reflexivity|]. intros code Hin.
  apply elem_of_cons in Hin as [Heq|Hin]; [done | by apply elem_of_nil in Hin].
Qed.

(** C5 (amended).  The executor returns [{success: false, port}] whenever
    the launch promise is rejected (an error, a disconnect, an exit with a
    code other than 0), and [{success: true, port}] only when the child has
    exited with code 0, and then that exit is the first thing the child
    reported; it does not return as long as the child has reported
    nothing, and the first report (which for an error or a disconnect does
    not mean the child has ended) decides what it returns. *)
Theorem runExecutor_result (options_port : Z) (events : list child_event) :
  let result := awaited options_port (startVerdaccio events) in
  (∀ r, startVerdaccio events = Rejected r →
        result = Some {| success := false; port := options_port |})
  ∧ (∀ r, result = Some r → success r = true →
          r = {| success := true; port := options_port |}
          ∧ ∃ rest, events = on_exit (Some 0%Z) :: rest)
  ∧ (result = None ↔ events = [])
  ∧ (∀ e rest, events = e :: rest →
       result = Some {| success := bool_decide (e = on_exit (Some 0%Z));
                        port := options_port |}).
Proof.
  intros result. subst result.
  assert (Hfirst : ∀ e rest,
            awaited options_port (startVerdaccio (e :: rest))
            = Some {| success := bool_decide (e = on_exit (Some 0%Z));
                      port := options_port |}).
  { intros e rest. rewrite startVerdaccio_first.
    destruct e as [err| |code]; simpl; try done.
    case_bool_decide as Hc; subst.
    - by rewrite bool_decide_eq_true_2.
    - rewrite bool_decide_eq_false_2; [done|]. intros [= ->]. done. }
  split_and!.
  - intros r ->. done.
  - intros r Hr Hsuccess. destruct events as [|e rest]; [done|].
    rewrite Hfirst in Hr. inversion Hr; subst r; clear Hr. simpl in Hsuccess.
    apply bool_decide_eq_true in Hsuccess. subst e.
    split; [done | by exists rest].
  - split; [|by intros ->]. destruct events as [|e rest]; [done|]. by rewrite Hfirst.
  - intros e rest ->. apply Hfirst.
Qed.

(** What [runExecutor] returns, when it returns, is what awaiting the launch
    promise gives. *)
Lemma runExecutor_returns_awaited npm_fails resolves options npmScopes events s r s' :
  runExecutor npm_fails resolves options npmScopes events s = Returns r s' →
  r = awaited (options_port options) (startVerdaccio events).
Proof.
  unfold runExecutor. destruct resolves; simpl; [|done]. unfold bind.
  destruct (getNpmRegistriesConfig _ _ _) as [items s1|]; [|done].
  destruct (configureNpm _ _ _ _ _) as [[] s2|]; [|done].
  unfold ret. by intros [= <- _].
Qed.

End registry_process.

Section config_manager.
Import StartRepo.

Variable npm_fails : list event → npm_command → bool.

Local Abbreviation execSync := (StartRepo.execSync npm_fails).
Local Abbreviation set := (StartRepo.set npm_fails).
Local Abbreviation restore := (StartRepo.restore npm_fails).
Local Abbreviation restoreAll := (StartRepo.restoreAll npm_fails).
Local Abbreviation do_call := (StartRepo.do_call npm_fails).
Local Abbreviation run_calls := (StartRepo.run_calls npm_fails).

(** ** The [Map] operations *)

Lemma map_get_set_eq {K V} `{EqDecision K} (k : K) (v : V) m :
  map_get k (map_set k v m) = Some v.
Proof.
  induction m as [|[k' v'] m IH]; simpl.
  - by rewrite decide_True.
  - destruct (decide (k' = k)) as [->|Hne]; simpl.
    + by rewrite decide_True.
    + by rewrite decide_False.
Qed.

Lemma map_get_set_ne {K V} `{EqDecision K} (k k' : K) (v : V) m :
  k ≠ k' → map_get k' (map_set k v m) = map_get k' m.
Proof.
  intros Hne. induction m as [|[k0 v0] m IH]; simpl.
  - by rewrite decide_False.
  - destruct (decide (k0 = k)) as [->|Hne0]; simpl.
    + by rewrite !decide_False.
    + by rewrite IH.
Qed.

Lemma map_get_elem {K V} `{EqDecision K} (k : K) (v : V) m :
  (k, v) ∈ m → is_Some (map_get k m).
Proof.
  induction m as [|[k' v'] m IH]; intros Hin; [by apply elem_of_nil in Hin|].
  simpl. destruct (decide (k' = k)); [done|].
  apply elem_of_cons in Hin as [[= -> ->]|Hin]; [done | by apply IH].
Qed.

Lemma map_get_fresh {K V} `{EqDecision K} (k : K) (m : list (K * V)) :
  k ∉ map fst m → map_get k m = None.
Proof.
  induction m as [|[k' v'] m IH]; intros Hk; simpl; [done|].
  destruct (decide (k' = k)) as [->|Hne].
  - exfalso. apply Hk. simpl. apply elem_of_cons. by left.
  - apply IH. intros Hin. apply Hk. simpl. apply elem_of_cons. by right.
Qed.

Lemma map_set_keys {K V} `{EqDecision K} (k : K) (v : V) m :
  map fst (map_set k v m) = if map_has k m then map fst m else map fst m ++ [k].
Proof.
  unfold map_has. induction m as [|[k' v'] m IH]; simpl; [done|].
  destruct (decide (k' = k)) as [->|Hne]; simpl; [done|].
  rewrite IH. by destruct (map_get k m).
Qed.

Lemma map_set_NoDup {K V} `{EqDecision K} (k : K) (v : V) m :
  NoDup (map fst m) → NoDup (map fst (map_set k v m)).
Proof.
  intros Hnd. rewrite map_set_keys. unfold map_has.
  destruct (map_get k m) eqn:E; [done|].
  apply NoDup_app. split; [done|]. split; [|apply NoDup_singleton].
  intros x Hx ->%list_elem_of_singleton.
  apply list_elem_of_fmap in Hx as ([k' v'] & Hk & Hin). simpl in Hk. subst k'.
  apply map_get_elem in Hin. rewrite E in Hin. by destruct Hin.
Qed.

(** ** One call of [storeOriginalValue], [execSync] and [set] *)

Lemma set_eq name v loc :
  set name v loc = (storeOriginalValue name loc ;;; execSync (command_for name v loc)).
Proof. unfold StartRepo.set, command_for. by destruct (truthy v). Qed.

Lemma storeOriginalValue_spec name loc s :
  ∃ s', storeOriginalValue name loc s = Returns tt s'
        ∧ originalConf s' = originalConf s
        ∧ childProcess s' = childProcess s
        ∧ npmrc s' = npmrc s
        ∧ trace s' = trace s
        ∧ captured name loc s'
          = Some (default (originalConf s name loc) (captured name loc s))
        ∧ (∀ n l, (n, l) ≠ (name, loc) → captured n l s' = captured n l s)
        ∧ (is_Some (captured name loc s) → s' = s)
        ∧ (table_wf s → table_wf s').
Proof.
  unfold storeOriginalValue, bind, getLocationOriginalValues, captured, table_wf.
  destruct (map_get loc (originalValuesForLocations s)) as [vals|] eqn:Hloc; simpl.
  - unfold map_has. destruct (map_get name vals) as [v0|] eqn:Hname.
    + eexists. split; [reflexivity|]. rewrite Hloc. simpl. rewrite Hname. done.
    + eexists. split; [reflexivity|]. simpl. rewrite Hloc. simpl.
      rewrite map_get_set_eq. simpl. rewrite map_get_set_eq.
      split_and!; try done.
      * intros n l Hne. destruct (decide (l = loc)) as [->|Hl].
        { rewrite map_get_set_eq, Hloc. simpl. apply map_get_set_ne. congruence. }
        by rewrite map_get_set_ne.
      * intros Hwf l vs. destruct (decide (l = loc)) as [->|Hl].
        { rewrite map_get_set_eq. intros [= <-]. apply map_set_NoDup. by eapply Hwf. }
        rewrite map_get_set_ne by done. apply Hwf.
  - eexists. split; [reflexivity|]. simpl. rewrite !map_get_set_eq. simpl.
    split_and!; try done.
    + by rewrite decide_True.
    + intros n l Hne. destruct (decide (l = loc)) as [->|Hl].
      { rewrite map_get_set_eq, Hloc. simpl. rewrite decide_False; [done|]. congruence. }
      by rewrite !map_get_set_ne.
    + intros Hwf l vs. destruct (decide (l = loc)) as [->|Hl].
      { rewrite map_get_set_eq. intros [= <-]. simpl. apply NoDup_singleton. }
      rewrite !map_get_set_ne by done. apply Hwf.
Qed.

Lemma execSync_spec c s :
  (execSync c s = Returns tt (after_commands [c] s) ∧ npm_fails (trace s) c = false)
  ∨ (execSync c s = Throws (CommandFailed c) (emit (Exec c) s) ∧ npm_fails (trace s) c = true).
Proof.
  unfold StartRepo.execSync. destruct (npm_fails (trace s) c); [by right | by left].
Qed.

Lemma set_captured name v loc s :
  is_Some (captured name loc s) →
  set name v loc s = execSync (command_for name v loc) s.
Proof.
  intros Hc. rewrite set_eq. unfold bind.
  destruct (storeOriginalValue_spec name loc s) as (s' & -> & _ & _ & _ & _ & _ & _ & Hsame & _).
  by rewrite (Hsame Hc).
Qed.

(** ** Runs in which no command fails *)

Lemma after_commands_nil s : after_commands [] s = s.
Proof. destruct s. unfold after_commands. simpl. by rewrite app_nil_r. Qed.

Lemma after_commands_app cmds1 cmds2 s :
  after_commands (cmds1 ++ cmds2) s = after_commands cmds2 (after_commands cmds1 s).
Proof.
  unfold after_commands. simpl. by rewrite fold_left_app, map_app, app_assoc.
Qed.

Lemma after_commands_cons c cmds s :
  after_commands (c :: cmds) s = after_commands cmds (after_commands [c] s).
Proof. apply (after_commands_app [c]). Qed.

Lemma captured_after_commands cmds name loc s :
  captured name loc (after_commands cmds s) = captured name loc s.
Proof. reflexivity. Qed.

Lemma execSync_returns c s s' : execSync c s = Returns tt s' → s' = after_commands [c] s.
Proof. destruct (execSync_spec c s) as [[-> _]|[-> _]]; [by intros [= <-] | done]. Qed.

Lemma forEach_cons {A} (body : A → M unit) x l s :
  forEach body (x :: l) s
  = match body x s with
    | Returns _ s' => forEach body l s'
    | Throws e s' => Throws e s'
    end.
Proof. reflexivity. Qed.

Lemma forEach_set_captured loc vals : ∀ s s',
  (∀ n v, (n, v) ∈ vals → is_Some (captured n loc s)) →
  forEach (λ '(n, v), set n v loc) vals s = Returns tt s' →
  s' = after_commands (map (λ '(n, v), command_for n v loc) vals) s.
Proof.
  induction vals as [|[n v] vals IH]; intros s s' Hc H.
  - inversion H. by rewrite after_commands_nil.
  - rewrite forEach_cons in H. rewrite set_captured in H by (eapply Hc; left).
    destruct (execSync (command_for n v loc) s) as [[] s1|] eqn:E; [|done].
    apply execSync_returns in E. subst s1.
    apply IH in H.
    + subst s'. symmetry. apply (after_commands_cons (command_for n v loc)).
    + intros n' v' Hin. rewrite captured_after_commands. eapply Hc. by right.
Qed.

Lemma restore_present loc vals s :
  map_get loc (originalValuesForLocations s) = Some vals →
  restore loc s = forEach (λ '(n, v), set n v loc) vals s.
Proof.
  intros Hloc. unfold StartRepo.restore, bind, getLocationOriginalValues. by rewrite Hloc.
Qed.

Lemma restore_returns loc vals s s' :
  map_get loc (originalValuesForLocations s) = Some vals →
  restore loc s = Returns tt s' →
  s' = after_commands (map (λ '(n, v), command_for n v loc) vals) s.
Proof.
  intros Hloc H. rewrite (restore_present _ _ _ Hloc) in H.
  apply forEach_set_captured in H; [done|].
  intros n v Hin. unfold captured. rewrite Hloc. simpl. by eapply map_get_elem.
Qed.

Lemma map_get_key {K V} `{EqDecision K} (k : K) (m : list (K * V)) :
  k ∈ map fst m → is_Some (map_get k m).
Proof.
  intros ([k' v] & Hk & Hin)%list_elem_of_fmap. simpl in Hk. subst k'.
  by eapply map_get_elem.
Qed.

Lemma forEach_restore_returns locs : ∀ s s',
  (∀ loc, loc ∈ locs → is_Some (map_get loc (originalValuesForLocations s))) →
  forEach restore locs s = Returns tt s' →
  s' = after_commands
         (flat_map (λ loc, map (λ '(n, v), command_for n v loc)
                               (default [] (map_get loc (originalValuesForLocations s))))
                   locs) s.
Proof.
  induction locs as [|loc locs IH]; intros s s' Hkeys H.
  - inversion H. by rewrite after_commands_nil.
  - rewrite forEach_cons in H.
    destruct (Hkeys loc) as [vals Hloc]; [by left|].
    destruct (restore loc s) as [[] s1|] eqn:E; [|done].
    apply (restore_returns _ _ _ _ Hloc) in E. subst s1.
    apply IH in H.
    + rewrite H. simpl flat_map. rewrite Hloc. simpl. by rewrite after_commands_app.
    + intros l Hl. simpl. apply Hkeys. by right.
Qed.

(** A [restoreAll] that returns has issued the commands of the snapshots
    it holds, and has changed nothing else. *)
Lemma restoreAll_returns s s' :
  restoreAll s = Returns tt s' →
  s' = after_commands (restore_commands (originalValuesForLocations s)) s.
Proof.
  unfold StartRepo.restoreAll. intros H. apply forEach_restore_returns in H; [done|].
  intros loc. apply map_get_key.
Qed.

(** ** Writing the same commands twice *)

(** What a list of commands leaves under one key of the configuration. *)
Lemma commands_twice (cmds : list npm_command) (m : gmap (location * string) string) :
  fold_left (λ m c, apply_command c m) cmds
            (fold_left (λ m c, apply_command c m) cmds m)
  = fold_left (λ m c, apply_command c m) cmds m.
Proof.
  set (run := fold_left (λ m c, apply_command c m)).
  assert (Hdich : ∀ k cmds m1 m2,
            (run cmds m1 !! k = m1 !! k ∧ run cmds m2 !! k = m2 !! k)
            ∨ run cmds m1 !! k = run cmds m2 !! k).
  { intros k. clear cmds m. induction cmds as [|c cmds IH]; intros m1 m2; [by left|].
    simpl. destruct (IH (apply_command c m1) (apply_command c m2)) as [[H1 H2]|H]; [|by right].
    rewrite H1, H2.
    destruct c as [name loc|name v loc]; simpl;
      (destruct (decide ((loc, name) = k)) as [<-|Hne];
       [right | left]).
    - by rewrite !lookup_delete_eq.
    - by rewrite !lookup_delete_ne.
    - by rewrite !lookup_insert_eq.
    - by rewrite !lookup_insert_ne. }
  apply map_eq. intros k.
  destruct (Hdich k cmds m (run cmds m)) as [[H1 H2]|H]; [done | by symmetry].
Qed.

(** C10.  When [restoreAll] returns and is called again, the second call
    finds the snapshots the first one found (neither call changes them),
    issues the same commands for the same keys and locations in the same
    order, and leaves the configuration as the first call left it. *)
Theorem restoreAll_idempotent (s s1 s2 : state) :
  restoreAll s = Returns tt s1 →
  restoreAll s1 = Returns tt s2 →
  let cmds := restore_commands (originalValuesForLocations s) in
  originalValuesForLocations s1 = originalValuesForLocations s
  ∧ originalValuesForLocations s2 = originalValuesForLocations s
  ∧ trace s1 = trace s ++ map Exec cmds
  ∧ trace s2 = trace s1 ++ map Exec cmds
  ∧ npmrc s2 = npmrc s1.
Proof.
  intros H1 H2 cmds. apply restoreAll_returns in H1, H2. subst s1 s2. simpl.
  split_and!; try done. apply commands_twice.
Qed.

(** ** What every call preserves *)

Lemma extends_refl s : extends s s.
Proof. unfold extends. split_and!; try done. exists []. by rewrite app_nil_r. Qed.

Lemma extends_trans s1 s2 s3 : extends s1 s2 → extends s2 s3 → extends s1 s3.
Proof.
  intros (Hc1 & Hp1 & [e1 Ht1] & Hk1 & Hi1) (Hc2 & Hp2 & [e2 Ht2] & Hk2 & Hi2).
  unfold extends. split_and!; try congruence.
  - exists (e1 ++ e2). by rewrite Ht2, Ht1, app_assoc.
  - intros name loc v H. by apply Hk2, Hk1.
  - intros H. by apply Hi2, Hi1.
Qed.

Lemma target_command_for name v loc : target (command_for name v loc) = (name, loc).
Proof. unfold command_for. by destruct (truthy v). Qed.

(** The state [set] ends in, whether or not its command fails: the
    snapshot is taken first, the command is issued on the state so reached. *)
Lemma set_final name v loc s :
  ∃ s', storeOriginalValue name loc s = Returns tt s'
        ∧ set name v loc s = execSync (command_for name v loc) s'
        ∧ let f := final_state (set name v loc s) in
          originalConf f = originalConf s'
          ∧ originalValuesForLocations f = originalValuesForLocations s'
          ∧ childProcess f = childProcess s'
          ∧ trace f = trace s' ++ [Exec (command_for name v loc)].
Proof.
  destruct (storeOriginalValue_spec name loc s) as (s' & Hs & _).
  exists s'. split; [done|]. rewrite set_eq. unfold bind. rewrite Hs. split; [done|].
  by destruct (execSync_spec (command_for name v loc) s') as [[-> _]|[-> _]].
Qed.

Lemma set_extends name v loc s : extends s (final_state (set name v loc s)).
Proof.
  destruct (storeOriginalValue_spec name loc s)
    as (s' & Hs & Hconf & Hchild & _ & Htrace & Hcap & Hother & _ & Hwf).
  destruct (set_final name v loc s) as (s'' & Hs' & _ & Hfc & Hft & Hfp & Hftr).
  rewrite Hs in Hs'. inversion Hs'; subst s''; clear Hs'.
  set (f := final_state (set name v loc s)) in *.
  assert (Hcapf : ∀ n l, captured n l f = captured n l s').
  { intros n l. unfold captured. by rewrite Hft. }
  assert (Hstable : ∀ n l x, captured n l s = Some x → captured n l f = Some x).
  { intros n l x Hx. rewrite Hcapf.
    destruct (decide ((n, l) = (name, loc))) as [[= -> ->]|Hne].
    - by rewrite Hcap, Hx.
    - by rewrite Hother. }
  unfold extends. split_and!; try congruence.
  - eexists. by rewrite Hftr, Htrace.
  - exact Hstable.
  - intros (Hw & Hf & Hcov). unfold manager_inv. split_and!.
    + unfold table_wf. rewrite Hft. by apply Hwf.
    + intros n l x. rewrite Hcapf, Hfc, Hconf.
      destruct (decide ((n, l) = (name, loc))) as [[= -> ->]|Hne].
      * rewrite Hcap. intros [= <-].
        destruct (captured name loc s) as [x|] eqn:Hx; [by apply Hf | done].
      * rewrite Hother by done. apply Hf.
    + intros c. rewrite Hftr, Htrace. intros [Hin|Hin]%elem_of_app.
      * destruct (Hcov c Hin) as [x Hx]. exists x. by apply Hstable.
      * apply list_elem_of_singleton in Hin. inversion Hin; subst c.
        rewrite target_command_for. simpl. rewrite Hcapf, Hcap. by eexists.
Qed.

Lemma forEach_extends {A} (body : A → M unit) (l : list A) :
  (∀ x s, extends s (final_state (body x s))) →
  ∀ s, extends s (final_state (forEach body l s)).
Proof.
  intros Hbody. induction l as [|x l IH]; intros s; [apply extends_refl|].
  rewrite forEach_cons. pose proof (Hbody x s) as Hx.
  destruct (body x s) as [[] s1|e s1]; simpl in Hx; [|done].
  eapply extends_trans; [exact Hx | apply IH].
Qed.

Lemma new_location_extends loc s :
  map_get loc (originalValuesForLocations s) = None →
  extends s (with_table (map_set loc [] (originalValuesForLocations s)) s).
Proof.
  intros Hloc.
  assert (Hcap : ∀ n l, captured n l (with_table (map_set loc [] (originalValuesForLocations s)) s)
                        = captured n l s).
  { intros n l. unfold captured. simpl. destruct (decide (l = loc)) as [->|Hl].
    - by rewrite map_get_set_eq, Hloc.
    - by rewrite map_get_set_ne. }
  unfold extends. split_and!; try done.
  - exists []. simpl. by rewrite app_nil_r.
  - intros n l v. by rewrite Hcap.
  - intros (Hw & Hf & Hcov). unfold manager_inv. split_and!.
    + intros l vals. simpl. destruct (decide (l = loc)) as [->|Hl].
      * rewrite map_get_set_eq. intros [= <-]. apply NoDup_nil_2.
      * rewrite map_get_set_ne by done. apply Hw.
    + intros n l v. rewrite Hcap. apply Hf.
    + intros c Hin. rewrite Hcap. by apply Hcov.
Qed.

Lemma restore_extends loc s : extends s (final_state (restore loc s)).
Proof.
  unfold StartRepo.restore, bind, getLocationOriginalValues.
  destruct (map_get loc (originalValuesForLocations s)) as [vals|] eqn:Hloc.
  - apply forEach_extends. intros [n v] s0. apply set_extends.
  - simpl. by apply new_location_extends.
Qed.

Lemma restoreAll_extends s : extends s (final_state (restoreAll s)).
Proof. unfold StartRepo.restoreAll. apply forEach_extends. intros loc s0. apply restore_extends. Qed.

Lemma do_call_extends c s : extends s (final_state (do_call c s)).
Proof.
  destruct c; simpl; [apply set_extends | apply restore_extends | apply restoreAll_extends].
Qed.

Lemma run_calls_extends calls : ∀ s, extends s (run_calls calls s).
Proof.
  induction calls as [|c calls IH]; intros s; [apply extends_refl|].
  eapply extends_trans; [apply (do_call_extends c) | apply IH].
Qed.

Lemma new_manager_inv conf files : manager_inv (NpmConfManager conf files).
Proof.
  unfold manager_inv, table_wf, faithful, covered, captured. simpl. split_and!; try done.
  intros c Hin. by apply elem_of_nil in Hin.
Qed.

(** ** Restoring one key *)

Lemma apply_command_for_same (name : string) (v : value) (loc : location)
    (m : gmap (location * string) string) :
  apply_command (command_for name v loc) m !! (loc, name) = written_back v.
Proof.
  unfold command_for, written_back. destruct (truthy v) eqn:Hv; simpl.
  - rewrite lookup_insert_eq. destruct v; [done | discriminate].
  - by rewrite lookup_delete_eq.
Qed.

Lemma apply_command_for_other (n name : string) (v : value) (loc : location)
    (m : gmap (location * string) string) :
  n ≠ name → apply_command (command_for n v loc) m !! (loc, name) = m !! (loc, name).
Proof.
  intros Hne. unfold command_for. destruct (truthy v); simpl.
  - rewrite lookup_insert_ne; [done | congruence].
  - rewrite lookup_delete_ne; [done | congruence].
Qed.

Lemma restore_commands_other (loc : location) (name : string) (vals : list (string * value)) :
  name ∉ map fst vals →
  ∀ m : gmap (location * string) string,
    fold_left (λ m c, apply_command c m) (map (λ '(n, v), command_for n v loc) vals) m
      !! (loc, name) = m !! (loc, name).
Proof.
  induction vals as [|[n v] vals IH]; intros Hfresh m; [done|]. simpl.
  rewrite IH.
  - apply apply_command_for_other. intros ->. apply Hfresh. simpl. apply elem_of_cons. by left.
  - intros Hin. apply Hfresh. simpl. apply elem_of_cons. by right.
Qed.

Lemma restore_commands_lookup (loc : location) (name : string) (x : value)
    (vals : list (string * value)) :
  NoDup (map fst vals) → map_get name vals = Some x →
  ∀ m : gmap (location * string) string,
    fold_left (λ m c, apply_command c m) (map (λ '(n, v), command_for n v loc) vals) m
      !! (loc, name) = written_back x.
Proof.
  induction vals as [|[n v] vals IH]; intros Hnd Hget m; [done|].
  simpl in Hnd. apply NoDup_cons in Hnd as [Hfresh Hnd]. simpl in *.
  destruct (decide (n = name)) as [->|Hne].
  - injection Hget as ->. rewrite restore_commands_other by done.
    apply apply_command_for_same.
  - by apply IH.
Qed.

Lemma forEach_set_extends (calls : list (string * value * location)) s :
  extends s (final_state (forEach (λ '(n, v, l), set n v l) calls s)).
Proof. apply forEach_extends. intros [[n v] l] s0. apply set_extends. Qed.

Lemma forEach_set_captures (calls : list (string * value * location)) name v loc :
  (name, v, loc) ∈ calls →
  ∀ s s', forEach (λ '(n, v, l), set n v l) calls s = Returns tt s' →
          is_Some (captured name loc s').
Proof.
  induction calls as [|[[n0 v0] l0] calls IH]; intros Hin s s' H;
    [by apply elem_of_nil in Hin|].
  rewrite forEach_cons in H.
  destruct (set n0 v0 l0 s) as [[] sA|] eqn:E; [|done].
  apply elem_of_cons in Hin as [[= <- <- <-]|Hin]; [|by eapply IH].
  destruct (storeOriginalValue_spec name loc s) as (sB & HsB & _ & _ & _ & _ & Hcap & _).
  destruct (set_final name v loc s) as (sB' & HsB' & _ & _ & Hft & _).
  rewrite HsB in HsB'. inversion HsB'; subst sB'; clear HsB'.
  rewrite E in Hft. simpl in Hft.
  assert (HA : is_Some (captured name loc sA)).
  { unfold captured in *. rewrite Hft, Hcap. by eexists. }
  destruct HA as [x Hx]. pose proof (forEach_set_extends calls sA) as Hext.
  rewrite H in Hext. simpl in Hext. destruct Hext as (_ & _ & _ & Hstable & _).
  exists x. by apply Hstable.
Qed.

(** C2 (amended).  On a new manager, after [set] calls that returned, of
    which at least one was for the key [name] at the location [loc], and a
    [restore(loc)] that returned: the snapshot of that key is the value the
    configuration had for it at that location, whatever values were set in
    between and as soon as the first such [set] returned; and [restore]
    leaves the key with that value when it is a non-empty string, and without
    a value at that location when it is undefined or empty. *)
Theorem restore_writes_back_first_snapshot
    (conf : string → location → value) (files : gmap (location * string) string)
    (calls : list (string * value * location)) (name : string) (loc : location)
    (s1 s2 : state) :
  (∃ v, (name, v, loc) ∈ calls) →
  forEach (λ '(n, v, l), set n v l) calls (NpmConfManager conf files) = Returns tt s1 →
  restore loc s1 = Returns tt s2 →
  (∀ before after sA v,
     calls = before ++ after → (name, v, loc) ∈ before →
     forEach (λ '(n, v, l), set n v l) before (NpmConfManager conf files) = Returns tt sA →
     captured name loc sA = Some (conf name loc))
  ∧ captured name loc s1 = Some (conf name loc)
  ∧ npmrc s2 !! (loc, name) = written_back (conf name loc).
Proof.
  intros [v Hin] Hsets Hrestore.
  assert (Hrec : ∀ l x sA,
            (name, x, loc) ∈ l →
            forEach (λ '(n, v, l), set n v l) l (NpmConfManager conf files) = Returns tt sA →
            captured name loc sA = Some (conf name loc) ∧ manager_inv sA).
  { intros l x sA Hl HsA.
    pose proof (forEach_set_extends l (NpmConfManager conf files)) as Hext.
    rewrite HsA in Hext. simpl in Hext. destruct Hext as (Hconf & _ & _ & _ & Hinv).
    specialize (Hinv (new_manager_inv conf files)).
    destruct (forEach_set_captures l name x loc Hl _ _ HsA) as [y Hy].
    split; [|done]. destruct Hinv as (_ & Hf & _).
    rewrite Hy. f_equal. rewrite (Hf _ _ _ Hy). by rewrite Hconf. }
  destruct (Hrec calls v s1 Hin Hsets) as [Hcap (Hwf & _ & _)].
  split_and!; [|done|].
  - intros before after sA x _ Hx HsA. by destruct (Hrec before x sA Hx HsA).
  - unfold captured in Hcap.
    destruct (map_get loc (originalValuesForLocations s1)) as [vals|] eqn:Hloc; [|done].
    simpl in Hcap. rewrite (restore_returns _ _ _ _ Hloc Hrestore). simpl.
    apply restore_commands_lookup; [by eapply Hwf | done].
Qed.

(** C4 (amended).  A [set] first takes the snapshot and then issues its
    command: taking the snapshot touches neither the configuration files nor
    the trace, and stores, for a key that has no snapshot at that location,
    the value the key has at that location (the effective value is not
    stored), and for a key that has one, nothing.  So, on a manager that
    started new, whatever calls were made: every key a command was issued
    for has its snapshot, which is the value the key had at that location;
    and a snapshot, once taken, is the same after any further calls. *)
Theorem capture_once_before_mutation
    (conf : string → location → value) (files : gmap (location * string) string)
    (calls : list call) :
  let s := run_calls calls (NpmConfManager conf files) in
  (∀ name v loc s0,
     ∃ s1, storeOriginalValue name loc s0 = Returns tt s1
           ∧ npmrc s1 = npmrc s0 ∧ trace s1 = trace s0
           ∧ captured name loc s1
             = Some (default (originalConf s0 name loc) (captured name loc s0))
           ∧ (is_Some (captured name loc s0) → s1 = s0)
           ∧ set name v loc s0 = execSync (command_for name v loc) s1)
  ∧ (∀ c, Exec c ∈ trace s →
          captured (fst (target c)) (snd (target c)) s
          = Some (conf (fst (target c)) (snd (target c))))
  ∧ (∀ name loc v more,
       captured name loc s = Some v → captured name loc (run_calls more s) = Some v).
Proof.
  intros s. split_and!.
  - intros name v loc s0.
    destruct (storeOriginalValue_spec name loc s0)
      as (s1 & Hs & _ & _ & Hfiles & Htrace & Hcap & _ & Hsame & _).
    destruct (set_final name v loc s0) as (s1' & Hs' & Hset & _).
    rewrite Hs in Hs'. inversion Hs'; subst s1'; clear Hs'.
    exists s1. by split_and!.
  - destruct (run_calls_extends calls (NpmConfManager conf files))
      as (Hconf & _ & _ & _ & Hinv).
    destruct (Hinv (new_manager_inv conf files)) as (_ & Hf & Hcov).
    intros c Hc. destruct (Hcov c Hc) as [x Hx]. fold s in Hx, Hf, Hconf.
    rewrite Hx. f_equal. rewrite (Hf _ _ _ Hx). by rewrite Hconf.
  - intros name loc v more Hv.
    destruct (run_calls_extends more s) as (_ & _ & _ & Hstable & _). by apply Hstable.
Qed.

(** ** The exit handler *)

Section exit_handler.

Variable kill_throws : option signal → bool.

Local Abbreviation kill_child := (StartRepo.kill_child kill_throws).
Local Abbreviation processExitListener :=
  (StartRepo.processExitListener npm_fails kill_throws).

(** Once the child was signalled (or there is none), the handler returns
    whatever the restoration does. *)
Lemma processExitListener_returns sig s s0 :
  kill_child sig s = Returns tt s0 →
  ∃ s', processExitListener sig s = Returns tt s'.
Proof.
  intros Hkill. unfold StartRepo.processExitListener, bind, try_catch. rewrite Hkill.
  destruct (restoreAll s0) as [[] s1|e s1]; by eexists.
Qed.

(** C8.  When [restoreAll] throws inside the exit handler, the handler
    catches the error, logs it with [console.error] and returns: it never
    throws it again.  The child process, if there is one, was sent the
    signal before the first command of the restoration. *)
Theorem processExitListener_swallows_restore_error
    (sig : option signal) (s s0 s1 : state) (e : error) :
  kill_child sig s = Returns tt s0 →
  restoreAll s0 = Throws e s1 →
  processExitListener sig s = Returns tt (emit (ConsoleError e) s1)
  ∧ (childProcess s = true → ∃ later, trace s1 = trace s ++ Kill sig :: later).
Proof.
  intros Hkill H. split.
  - unfold StartRepo.processExitListener, bind, try_catch. by rewrite Hkill, H.
  - intros Hchild. unfold StartRepo.kill_child in Hkill. rewrite Hchild in Hkill.
    destruct (kill_throws sig); [done|]. inversion Hkill; subst s0; clear Hkill.
    destruct (restoreAll_extends (emit (Kill sig) s)) as (_ & _ & [evs Hevs] & _).
    rewrite H in Hevs. simpl in Hevs. exists evs. by rewrite Hevs, <- app_assoc.
Qed.

End exit_handler.

End config_manager.

Section config_manager_samples.
Import StartRepo.

(** C2, as stated, fails: when the value recorded at the first [set] is
    the empty string, [restore] deletes the key instead of writing the
    empty string back. *)
Lemma empty_value_is_deleted_on_restore :
  let s0 := NpmConfManager Sample.conf_empty_registry Sample.files_empty_registry in
  ∃ s1 s2,
    StartRepo.set Sample.never_fails "registry" (Some "http://localhost:4873/") (Some "user") s0
      = Returns tt s1
    ∧ StartRepo.restore Sample.never_fails (Some "user") s1 = Returns tt s2
    ∧ npmrc s0 !! (Some "user", "registry") = Some ""
    ∧ captured "registry" (Some "user") s1 = Some (Some "")
    ∧ npmrc s2 !! (Some "user", "registry") = None.
Proof. do 2 eexists. split_and!; reflexivity. Qed.

Lemma restore_writes_back_first_snapshot_witness :
  let calls := [("registry", Some "http://localhost:4873/", Some "user");
                ("registry", Some "http://localhost:4874/", Some "user")] in
  let s0 := NpmConfManager Sample.conf_private Sample.files_private in
  let s1 := final_state (forEach (λ '(n, v, l), StartRepo.set Sample.never_fails n v l) calls s0) in
  let s2 := final_state (StartRepo.restore Sample.never_fails (Some "user") s1) in
  (∀ before after sA v,
     calls = before ++ after → ("registry", v, Some "user") ∈ before →
     forEach (λ '(n, v, l), StartRepo.set Sample.never_fails n v l) before s0 = Returns tt sA →
     captured "registry" (Some "user") sA = Some (Some "https://npm.acme.test/"))
  ∧ captured "registry" (Some "user") s1 = Some (Some "https://npm.acme.test/")
  ∧ npmrc s2 !! (Some "user", "registry") = Some "https://npm.acme.test/".
Proof.
  intros calls s0 s1 s2.
  apply (restore_writes_back_first_snapshot Sample.never_fails Sample.conf_private
           Sample.files_private calls "registry" (Some "user") s1 s2).
  - exists (Some "http://localhost:4873/"). by left.
  - reflexivity.
  - reflexivity.
Defined.

(** C4, as stated, fails: the first [set] for a key stores the value the
    key has at the location and nothing else; the effective value of the key
    is not stored. *)
Lemma effective_value_is_not_captured :
  let s0 := NpmConfManager Sample.conf ∅ in
  let s1 := final_state (StartRepo.set Sample.never_fails "registry"
                           (Some "http://localhost:4873/") (Some "user") s0) in
  originalConf s0 "registry" None = Some "https://registry.npmjs.org/"
  ∧ originalConf s0 "registry" (Some "user") = None
  ∧ originalValuesForLocations s1 = [(Some "user", [("registry", None)])].
Proof. repeat split. Qed.

Example pointed_at_local_state :
  originalValuesForLocations Sample.pointed_at_local
    = [(Some "user", [("registry", Some "https://npm.acme.test/")])]
  ∧ npmrc Sample.pointed_at_local !! (Some "user", "registry") = Some "http://localhost:4874/"
  ∧ trace Sample.pointed_at_local
    = [Exec (config_set "registry" "http://localhost:4873/" (Some "user"));
       Exec (config_set "registry" "http://localhost:4874/" (Some "user"))].
Proof. repeat split. Qed.

Lemma restoreAll_idempotent_witness :
  let s := Sample.pointed_at_local in
  let s1 := final_state (restoreAll Sample.never_fails s) in
  let s2 := final_state (restoreAll Sample.never_fails s1) in
  let cmds := restore_commands (originalValuesForLocations s) in
  originalValuesForLocations s1 = originalValuesForLocations s
  ∧ originalValuesForLocations s2 = originalValuesForLocations s
  ∧ trace s1 = trace s ++ map Exec cmds
  ∧ trace s2 = trace s1 ++ map Exec cmds
  ∧ npmrc s2 = npmrc s1.
Proof.
  intros s s1 s2.
  apply (restoreAll_idempotent Sample.never_fails s s1 s2); reflexivity.
Defined.

Lemma processExitListener_swallows_restore_error_witness :
  let sig := Some (signal_name "SIGTERM") in
  let s := Sample.serving in
  let s0 := emit (Kill sig) s in
  let e := CommandFailed (config_set "registry" "https://npm.acme.test/" (Some "user")) in
  let s1 := final_state (restoreAll Sample.always_fails s0) in
  processExitListener Sample.always_fails (λ _, false) sig s
    = Returns tt (emit (ConsoleError e) s1)
  ∧ (childProcess s = true → ∃ later, trace s1 = trace s ++ Kill sig :: later).
Proof.
  intros sig s s0 e s1.
  apply (processExitListener_swallows_restore_error Sample.always_fails (λ _, false)
           sig s s0 s1 e); reflexivity.
Defined.

End config_manager_samples.

(* ===================================================================== *)
(** * Further properties                                                  *)
(* ===================================================================== *)

Section manifest_merger_more.
Import Bundle Reread.

Context {World : Type}.
Variable tree_at : string → World → option Fs.node.
Variable put_tree : string → Fs.node → World → World.
Variable version_at : string → World → option string.

Local Abbreviation copyFolderSync := (Bundle.copyFolderSync World tree_at put_tree).
Local Abbreviation merge_lib := (Bundle.merge_lib World tree_at put_tree version_at).
Local Abbreviation merge_libs := (Bundle.merge_libs World tree_at put_tree version_at).
Local Abbreviation merged := (Bundle.merged World tree_at put_tree version_at).

(** The two ways one library dependency is processed. *)
Lemma merge_lib_cases nm dependency pj w pj1 w1 :
  merge_lib nm dependency (pj, w) = Ok (pj1, w1) →
  ((lib_packageName dependency ∈ depNames pj) ∧ pj1 = pj ∧ w1 = w)
  ∨ ((lib_packageName dependency ∉ depNames pj)
     ∧ copyFolderSync (lib_distPath dependency)
         (join nm (lib_packageName dependency)) w = Ok w1
     ∧ pj1 = addDependency
               {| npm_packageName := lib_packageName dependency;
                  npm_version :=
                    version_at (join (join nm (lib_packageName dependency)) "package.json") w1 |}
               to_bundledDependencies pj).
Proof.
  unfold Bundle.merge_lib.
  destruct (hasDependency pj (lib_packageName dependency)) eqn:Hhas.
  - apply hasDependency_true in Hhas. intros [= <- <-]. by left.
  - apply hasDependency_false in Hhas.
    destruct (copyFolderSync _ _ w) as [w2|] eqn:Ecopy; simpl; [|done].
    intros [= <- <-]. by right.
Qed.

Lemma merge_libs_declared nm libs pj w :
  (∀ dependency, dependency ∈ libs → lib_packageName dependency ∈ depNames pj) →
  merge_libs nm libs (pj, w) = Ok (pj, w).
Proof.
  induction libs as [|dependency libs IH]; intros Hall; [done|].
  rewrite (merge_libs_cons tree_at put_tree version_at). unfold Bundle.merge_lib.
  rewrite (proj2 (hasDependency_true pj _)) by (apply Hall; left). simpl.
  apply IH. intros d Hd. apply Hall. by right.
Qed.

Lemma merge_npms_declared npms pj :
  (∀ dependency, dependency ∈ npms → npm_packageName dependency ∈ depNames pj) →
  merge_npms npms pj = pj.
Proof.
  induction npms as [|dependency npms IH]; intros Hall; [done|].
  rewrite merge_npms_cons. unfold merge_npm.
  rewrite (proj2 (hasDependency_true pj _)) by (apply Hall; left).
  apply IH. intros d Hd. apply Hall. by right.
Qed.

(** The keys of the four maps after the pass over the library
    dependencies. *)
Lemma merge_libs_names nm libs : ∀ pj w pj' w',
  merge_libs nm libs (pj, w) = Ok (pj', w') →
  depNames pj' = depNames pj ∪ list_to_set (map lib_packageName libs).
Proof.
  induction libs as [|dependency libs IH]; intros pj w pj' w' H.
  - inversion H. simpl. set_solver.
  - rewrite (merge_libs_cons tree_at put_tree version_at) in H.
    destruct (merge_lib nm dependency (pj, w)) as [[pj1 w1]|] eqn:E1; simpl in H; [|done].
    rewrite (IH _ _ _ _ H). simpl.
    destruct (merge_lib_cases _ _ _ _ _ _ E1) as [(Hin & -> & ->)|(Hout & _ & ->)].
    + set_solver.
    + rewrite (depNames_addDependency tree_at put_tree version_at). simpl. set_solver.
Qed.

Lemma merge_npms_names npms : ∀ pj,
  depNames (merge_npms npms pj) = depNames pj ∪ list_to_set (map npm_packageName npms).
Proof.
  induction npms as [|dependency npms IH]; intros pj.
  - simpl. set_solver.
  - rewrite merge_npms_cons, IH. unfold merge_npm.
    destruct (hasDependency pj (npm_packageName dependency)) eqn:Hhas.
    + apply hasDependency_true in Hhas. simpl. set_solver.
    + rewrite (depNames_addDependency tree_at put_tree version_at). simpl. set_solver.
Qed.

Lemma merge_libs_pushes nm libs : ∀ pj w pj' w' dependency,
  merge_libs nm libs (pj, w) = Ok (pj', w') →
  dependency ∈ libs → lib_packageName dependency ∉ depNames pj →
  ∃ added, bundleDependencies pj' = bundleDependencies pj ++ added
           ∧ lib_packageName dependency ∈ added.
Proof.
  induction libs as [|d0 libs IH]; intros pj w pj' w' dependency H Hin Hout;
    [by apply elem_of_nil in Hin|].
  rewrite (merge_libs_cons tree_at put_tree version_at) in H.
  destruct (merge_lib nm d0 (pj, w)) as [[pj1 w1]|] eqn:E1; simpl in H; [|done].
  destruct (merge_lib_cases _ _ _ _ _ _ E1) as [(Hd0 & -> & ->)|(Hd0 & _ & ->)].
  - apply elem_of_cons in Hin as [->|Hin]; [done | by eapply IH].
  - destruct (merge_libs_spec tree_at put_tree version_at _ _ _ _ _ _ H)
      as (_ & _ & _ & _ & _ & rest & Hb & _).
    simpl in Hb. rewrite <- app_assoc in Hb.
    destruct (decide (lib_packageName dependency = lib_packageName d0)) as [Heq|Hne].
    + eexists. split; [exact Hb|]. rewrite Heq. simpl. by left.
    + apply elem_of_cons in Hin as [->|Hin]; [done|].
      destruct (IH _ _ _ _ dependency H Hin) as (added & Hb' & Hadded).
      { rewrite (depNames_addDependency tree_at put_tree version_at). simpl. set_solver. }
      simpl in Hb'. rewrite <- app_assoc in Hb'.
      eexists. split; [exact Hb'|]. simpl. by right.
Qed.

Lemma merged_unfold projectInfo w pj' w' :
  merged projectInfo w = Ok (pj', w') →
  ∃ pj1, merge_libs (publishNodeModulesPath projectInfo) (info_libDeps projectInfo)
           (with_defaults (publishPackageJson projectInfo), w) = Ok (pj1, w')
         ∧ pj' = merge_npms (info_npmDeps projectInfo) pj1.
Proof.
  unfold Bundle.merged. intros H.
  destruct (merge_libs _ _ _) as [[pj1 w1]|] eqn:E; simpl in H; [|done].
  inversion H; subst. by exists pj1.
Qed.


(** X2.  When every library and npm dependency is already declared in the
    destination manifest, the merger copies nothing and cannot fail: it
    reaches [writeJsonFile] with the manifest as it was read (completed by
    the empty containers) and the file system untouched. *)
Theorem merger_with_nothing_to_add (projectInfo : ProjectInfoPlusPlus) (w : World) :
  let pj := with_defaults (publishPackageJson projectInfo) in
  (∀ dependency, dependency ∈ info_libDeps projectInfo →
     hasDependency pj (lib_packageName dependency) = true) →
  (∀ dependency, dependency ∈ info_npmDeps projectInfo →
     hasDependency pj (npm_packageName dependency) = true) →
  merged projectInfo w = Ok (pj, w).
Proof.
  intros pj Hlibs Hnpms. unfold Bundle.merged. fold pj.
  rewrite merge_libs_declared.
  - simpl. rewrite merge_npms_declared; [done|].
    intros d Hd. by apply hasDependency_true, Hnpms.
  - intros d Hd. by apply hasDependency_true, Hlibs.
Qed.


Lemma merge_npms_app npms1 npms2 pj :
  merge_npms (npms1 ++ npms2) pj = merge_npms npms2 (merge_npms npms1 pj).
Proof. unfold merge_npms. apply fold_left_app. Qed.

(** X4.  An npm dependency whose package name is neither declared in the
    destination manifest nor the name of a library dependency is added to
    [dependencies] with the version of the first npm dependency of that name
    in the input order; it is not pushed on [bundleDependencies]; and the
    written file has the key with that version, or no such key when the
    version is undefined. *)
Theorem merger_first_npm_version (projectInfo : ProjectInfoPlusPlus)
    (w w' : World) (pj' : Manifest)
    (earlier later : list NpmPackageDependency) (dependency : NpmPackageDependency) :
  merged projectInfo w = Ok (pj', w') →
  info_npmDeps projectInfo = earlier ++ dependency :: later →
  hasDependency (with_defaults (publishPackageJson projectInfo))
                (npm_packageName dependency) = false →
  (∀ l, l ∈ info_libDeps projectInfo → lib_packageName l ≠ npm_packageName dependency) →
  (∀ d, d ∈ earlier → npm_packageName d ≠ npm_packageName dependency) →
  let pj := with_defaults (publishPackageJson projectInfo) in
  let n := npm_packageName dependency in
  dependencies pj' !! n = Some (npm_version dependency)
  ∧ written (dependencies pj') !! n = npm_version dependency
  ∧ ∃ added, bundleDependencies pj' = bundleDependencies pj ++ added ∧ n ∉ added.
Proof.
  intros Hm Hnpms Hout Hlibs Hearlier pj n. subst n. set (n := npm_packageName dependency) in *. apply hasDependency_false in Hout.
  destruct (merged_unfold _ _ _ _ Hm) as (pj1 & Hl & Hpj').
  destruct (merged_spec tree_at put_tree version_at _ _ _ _ Hm)
    as (_ & _ & _ & _ & added & Hb & Hadded).
  assert (Hv : dependencies pj' !! n = Some (npm_version dependency)).
  { rewrite Hpj', Hnpms, merge_npms_app, merge_npms_cons.
    set (pjA := merge_npms earlier pj1).
    assert (HA : n ∉ depNames pjA).
    { unfold pjA. rewrite merge_npms_names, (merge_libs_names _ _ _ _ _ _ Hl).
      intros [[Hin|Hin]%elem_of_union|Hin]%elem_of_union; [done| |].
      - apply elem_of_list_to_set, list_elem_of_fmap in Hin as (l & Heq & Hlin).
        by apply (Hlibs l Hlin).
      - apply elem_of_list_to_set, list_elem_of_fmap in Hin as (d & Heq & Hdin).
        by apply (Hearlier d Hdin). }
    destruct (merge_npms_spec tree_at put_tree version_at later (merge_npm dependency pjA))
      as (_ & _ & _ & _ & _ & Hkeep).
    unfold merge_npm in *. fold n in Hkeep |- *. rewrite (proj2 (hasDependency_false pjA _) HA) in *.
    rewrite Hkeep.
    - simpl. apply lookup_insert_eq.
    - rewrite (depNames_addDependency tree_at put_tree version_at). set_solver. }
  split_and!; [done | |].
  - unfold written. by rewrite lookup_omap, Hv.
  - exists added. split; [done|]. intros Hin.
    destruct (Hadded n Hin) as (_ & l & _ & _ & Hlin & Hname & _). by apply (Hlibs l Hlin).
Qed.

Lemma reread_written (m : gmap string (option string)) :
  (∀ n, m !! n ≠ Some None) → Some <$> written m = m.
Proof.
  intros Hdef. apply map_eq. intros n. unfold written.
  rewrite lookup_fmap, lookup_omap. specialize (Hdef n).
  by destruct (m !! n) as [[v|]|].
Qed.

Lemma with_defaults_reread pj : all_versions_defined pj → with_defaults (reread pj) = pj.
Proof.
  intros Hdef. destruct pj as [d dv p o b]. unfold with_defaults, reread. simpl in *.
  unfold all_versions_defined in Hdef. simpl in Hdef.
  rewrite !reread_written; [done | | | |]; intros n; by destruct (Hdef n) as (? & ? & ? & ?).
Qed.

(** X5.  A second merge of the same dependencies into the manifest the first
    one wrote adds nothing and copies nothing, provided every version the
    first one entered was resolved (an entry whose version is undefined is
    not in the written file, so it would be added anew). *)
Theorem merger_second_run (projectInfo : ProjectInfoPlusPlus)
    (w w' w2 : World) (pj' : Manifest) :
  merged projectInfo w = Ok (pj', w') →
  all_versions_defined pj' →
  merged {| publishPackageJson := reread pj';
            publishPackageJsonPath := publishPackageJsonPath projectInfo;
            publishNodeModulesPath := publishNodeModulesPath projectInfo;
            info_libDeps := info_libDeps projectInfo;
            info_npmDeps := info_npmDeps projectInfo |} w2
  = Ok (pj', w2).
Proof.
  intros Hm Hdef. destruct (merged_unfold _ _ _ _ Hm) as (pj1 & Hl & Hpj').
  assert (Hnames : depNames pj'
                   = depNames (with_defaults (publishPackageJson projectInfo))
                     ∪ list_to_set (map lib_packageName (info_libDeps projectInfo))
                     ∪ list_to_set (map npm_packageName (info_npmDeps projectInfo))).
  { by rewrite Hpj', merge_npms_names, (merge_libs_names _ _ _ _ _ _ Hl). }
  unfold Bundle.merged. simpl. rewrite (with_defaults_reread _ Hdef).
  rewrite merge_libs_declared.
  - simpl. rewrite merge_npms_declared; [done|].
    intros d Hd. rewrite Hnames. apply elem_of_union_r.
    apply elem_of_list_to_set, list_elem_of_fmap. by exists d.
  - intros d Hd. rewrite Hnames. apply elem_of_union_l, elem_of_union_r.
    apply elem_of_list_to_set, list_elem_of_fmap. by exists d.
Qed.

Variable writeJsonFile : string → Manifest → World → World.

(** X6.  When a library dependency is not declared in the destination
    manifest and no library dependency of its name has a build output
    ([outputs[0]] is undefined), the merger throws before it writes the
    manifest and the executor reports [success: false]. *)
Theorem merger_fails_without_output (projectInfo : ProjectInfoPlusPlus) (w : World)
    (dependency : BundableLibDependency) :
  dependency ∈ info_libDeps projectInfo →
  hasDependency (with_defaults (publishPackageJson projectInfo))
                (lib_packageName dependency) = false →
  (∀ l, l ∈ info_libDeps projectInfo →
        lib_packageName l = lib_packageName dependency → lib_distPath l = None) →
  (∃ e, Bundle.updateDependencies2 World tree_at put_tree version_at writeJsonFile
          projectInfo w = Throw e)
  ∧ Bundle.runExecutor World tree_at put_tree version_at writeJsonFile projectInfo w
    = (false, None).
Proof.
  intros Hin Hout Hnone. apply hasDependency_false in Hout.
  assert (Hm : ∃ e, merged projectInfo w = Throw e).
  { destruct (merged projectInfo w) as [[pj' w']|e] eqn:Hm; [|by exists e]. exfalso.
    destruct (merged_unfold _ _ _ _ Hm) as (pj1 & Hl & Hpj').
    destruct (merged_spec tree_at put_tree version_at _ _ _ _ Hm)
      as (_ & _ & _ & _ & added & Hb & Hadded).
    destruct (merge_libs_pushes _ _ _ _ _ _ _ Hl Hin Hout) as (added' & Hb' & Hn).
    destruct (merge_npms_spec tree_at put_tree version_at (info_npmDeps projectInfo) pj1)
      as (_ & _ & _ & Hb1 & _). rewrite <- Hpj' in Hb1.
    assert (added' = added) as ->.
    { eapply app_inv_head. rewrite <- Hb', <- Hb1. exact Hb. }
    destruct (Hadded _ Hn) as (_ & source & w1 & w2 & Hs & Hname & Hcopy & _).
    rewrite (Hnone source Hs Hname) in Hcopy. done. }
  destruct Hm as [e Hm].
  assert (Hu : Bundle.updateDependencies2 World tree_at put_tree version_at writeJsonFile
                 projectInfo w = Throw e).
  { unfold Bundle.updateDependencies2. by rewrite Hm. }
  split; [by exists e|]. unfold Bundle.runExecutor. by rewrite Hu.
Qed.

End manifest_merger_more.

Section folder_copier_more.
Import Fs.

Lemma dir_put_fresh name c es :
  name ∉ map fst es → dir_put name c es = es ++ [(name, c)].
Proof.
  induction es as [|[n c0] es IH]; simpl; intros Hfresh; [done|].
  destruct (String.eqb n name) eqn:E.
  - apply String.eqb_eq in E. subst n. exfalso. apply Hfresh, elem_of_cons. by left.
  - rewrite IH; [done|]. intros Hin. apply Hfresh, elem_of_cons. by right.
Qed.



Lemma forEach_cons_entry element c es dst :
  forEach copy_entry ((element, c) :: es) dst
  = let* dst' := copy_entry element c dst in forEach copy_entry es dst'.
Proof. reflexivity. Qed.

(** Copying the entries of a directory into a directory that has none of
    their names appends them. *)
Lemma forEach_into_fresh es :
  Forall (λ e, wf_node (snd e) = true →
               ∀ sub, snd e = Dir sub → copyFolderSync (snd e) None = Ok (snd e)) es →
  forallb (λ e, wf_node (snd e)) es = true →
  ∀ acc, NoDup (map fst (acc ++ es)) → forEach copy_entry es acc = Ok (acc ++ es).
Proof.
  induction es as [|[n c] es IH]; intros Hsub Hwf acc Hnd.
  - by rewrite app_nil_r.
  - apply Forall_cons in Hsub as [Hc Hsub]. simpl in Hwf.
    apply andb_prop in Hwf as [Hwfc Hwf].
    assert (Hfresh : n ∉ map fst acc).
    { rewrite map_app in Hnd. apply NoDup_app in Hnd as (_ & Hdisj & _).
      intros Hin. apply (Hdisj n Hin). simpl. apply elem_of_cons. by left. }
    rewrite forEach_cons_entry.
    assert (Hstep : copy_entry n c acc = Ok (acc ++ [(n, c)])).
    { destruct c as [data|sub]; unfold copy_entry.
      - unfold copyFileSync. rewrite (dir_lookup_None _ _ Hfresh).
        by rewrite dir_put_fresh.
      - rewrite (dir_lookup_None _ _ Hfresh).
        specialize (Hc Hwfc sub eq_refl). cbn [snd] in Hc.
        rewrite Hc. cbn [rbind]. by rewrite dir_put_fresh. }
    rewrite Hstep. simpl. rewrite IH; try done.
    + by rewrite <- app_assoc.
    + by rewrite <- app_assoc.
Qed.

(** X7.  Copying a directory to a path where nothing exists never fails and
    leaves there a tree equal to the source: the same entries in the same
    order, files with the same bytes, sub-directories (empty ones too)
    replicated. *)
Theorem copyFolderSync_into_nothing (entries : list (string * node)) :
  wf_node (Dir entries) = true →
  copyFolderSync (Dir entries) None = Ok (Dir entries).
Proof.
  assert (H : ∀ n, wf_node n = true → ∀ sub, n = Dir sub → copyFolderSync n None = Ok n).
  { induction n as [data|es IH] using node_nested_ind; intros Hwf sub Heq; [done|].
    simpl in Hwf. apply andb_prop in Hwf as [Hnd Hwf]. apply bool_decide_eq_true in Hnd.
    rewrite copyFolderSync_Dir. simpl.
    rewrite (forEach_into_fresh es IH Hwf []); [done | done]. }
  intros Hwf. by apply (H (Dir entries) Hwf entries).
Qed.



(** X9.  A copy never deletes: a file the destination had at a path where
    the source has no file is still there, with the same bytes, after a copy
    that did not fail. *)
Theorem copyFolderSync_keeps_destination_files (D : node) (D' : option node)
    (after : node) (p : list string) (data : list byte) :
  wf_node D = true →
  copyFolderSync D D' = Ok after →
  file_at p D = None →
  file_at_opt p D' = Some data →
  file_at p after = Some data.
Proof.
  intros Hwf Hcopy Hsrc Hdst.
  by rewrite (copyFolderSync_file_at D Hwf D' after Hcopy p), Hsrc.
Qed.

End folder_copier_more.

Section dependency_classifier_more.
Import Bundle Classified.

Lemma set_spread_elem (l : list string) x : x ∈ set_spread l ↔ x ∈ l.
Proof.
  induction l as [|y l IH]; simpl; [done|].
  rewrite !elem_of_cons, list_elem_of_filter, IH.
  destruct (decide (x = y)); naive_solver.
Qed.

Lemma set_spread_NoDup (l : list string) : NoDup (set_spread l).
Proof.
  induction l as [|y l IH]; simpl; [apply NoDup_nil_2|].
  apply NoDup_cons. split.
  - rewrite list_elem_of_filter. naive_solver.
  - by apply NoDup_filter.
Qed.

Lemma filter_all {A} (P : A → Prop) `{∀ x, Decision (P x)} (l : list A) :
  (∀ x, x ∈ l → P x) → filter P l = l.
Proof.
  induction l as [|y l IH]; intros Hall; [done|].
  rewrite filter_cons_True by (apply Hall; left).
  rewrite IH; [done|]. intros x Hx. apply Hall. by right.
Qed.

Lemma set_spread_id (l : list string) : NoDup l → set_spread l = l.
Proof.
  induction l as [|y l IH]; intros Hnd; [done|].
  apply NoDup_cons in Hnd as [Hy Hnd]. simpl. rewrite IH by done.
  rewrite filter_all; [done|]. intros x Hx ->. done.
Qed.

(** X10.  [[...new Set(l)]] keeps exactly the elements of [l], each once,
    in the order of their first occurrence: it has no duplicates, the same
    members as [l], it leaves a list without duplicates as it is and so does
    nothing when applied a second time, and its first element is the first
    element of [l]. *)
Theorem set_spread_dedups (l : list string) :
  NoDup (set_spread l)
  ∧ (∀ x, x ∈ set_spread l ↔ x ∈ l)
  ∧ (NoDup l → set_spread l = l)
  ∧ set_spread (set_spread l) = set_spread l
  ∧ head (set_spread l) = head l.
Proof.
  split_and!.
  - apply set_spread_NoDup.
  - apply set_spread_elem.
  - apply set_spread_id.
  - apply set_spread_id, set_spread_NoDup.
  - by destruct l.
Qed.

Section with_validator.

Variable validForNewPackages : string → bool.

Lemma filter_map_filter (deps : list DependentBuildableProjectNode) :
  filter (λ dep, lib_validPackageName dep = true)
         (map (lib_of validForNewPackages) (filter (λ dep, isLibNode dep = true) deps))
  = map (lib_of validForNewPackages)
        (filter (λ dep, isLibNode dep = true ∧ validForNewPackages (dep_name dep) = true) deps).
Proof.
  induction deps as [|dep deps IH]; [done|].
  destruct (isLibNode dep) eqn:Hlib.
  - rewrite (filter_cons_True (λ dep, isLibNode dep = true)) by done. simpl map.
    destruct (validForNewPackages (dep_name dep)) eqn:Hv.
    + rewrite !filter_cons_True; [|by rewrite Hlib, Hv | by simpl; rewrite Hv].
      simpl. by rewrite IH.
    + rewrite !filter_cons_False; [done| rewrite Hv; naive_solver | simpl; by rewrite Hv].
  - rewrite !filter_cons_False; [done | rewrite Hlib; naive_solver | by rewrite Hlib].
Qed.

(** X11.  The lib-deps of the classifier are, in input order
    ([dependencies] before [topLevelDependencies]), one record for each
    input node that is a library and whose package name is valid, and
    nothing else: its package name is the dependency's name, its project name
    the node's, its dist path the first output (undefined when there is
    none), its helper list empty. *)
Theorem getProjectDependencies_libDeps
    (dependencies topLevelDependencies : list DependentBuildableProjectNode)
    (helperDependencies : list string) (rootNpmDeps : gmap string string) :
  libDeps (getProjectDependencies validForNewPackages dependencies topLevelDependencies
             helperDependencies rootNpmDeps)
  = map (λ dep, {| lib_projectName := node_name (dep_node dep);
                   lib_packageName := dep_name dep;
                   lib_validPackageName := true;
                   lib_isScoped := isScoped (node_name (dep_node dep));
                   lib_distPath := head (dep_outputs dep);
                   lib_npmDeps := [] |})
        (filter (λ dep, isLibNode dep = true ∧ validForNewPackages (dep_name dep) = true)
                (dependencies ++ topLevelDependencies)).
Proof.
  unfold getProjectDependencies. cbn [libDeps].
  change (λ dep, {| lib_projectName := node_name (dep_node dep);
                    lib_packageName := dep_name dep;
                    lib_validPackageName := validForNewPackages (dep_name dep);
                    lib_isScoped := isScoped (node_name (dep_node dep));
                    lib_distPath := head (dep_outputs dep);
                    lib_npmDeps := [] |}) with (lib_of validForNewPackages).
  rewrite filter_map_filter. apply map_ext_in. intros dep Hin.
  apply list_elem_of_In, list_elem_of_filter in Hin as [[_ Hv] _].
  unfold lib_of. by rewrite Hv.
Qed.



End with_validator.

Lemma name_char_no_slash c : is_name_char c = true → Ascii.eqb c "/" = false.
Proof.
  intros H. destruct (Ascii.eqb_spec c "/") as [->|]; [|done]. by vm_compute in H.
Qed.

Lemma cut_at_slash_sound s : ∀ a b,
  cut_at_slash s = Some (a, b) → s = a +:+ String "/" b.
Proof.
  induction s as [|c s IH]; intros a b; simpl; [done|].
  destruct (Ascii.eqb_spec c "/") as [->|Hc].
  - by intros [= <- <-].
  - destruct (cut_at_slash s) as [[a' b']|]; [|done].
    intros [= <- <-]. simpl. by rewrite (IH a' b').
Qed.

Lemma cut_at_slash_complete a : ∀ b,
  all_chars is_name_char a = true → cut_at_slash (a +:+ String "/" b) = Some (a, b).
Proof.
  induction a as [|c a IH]; intros b Ha; simpl in *; [done|].
  apply andb_prop in Ha as [Hc Ha]. rewrite (name_char_no_slash c Hc).
  by rewrite IH.
Qed.

Lemma isScoped_cons c0 c1 rest :
  isScoped (String c0 (String c1 rest))
  = Ascii.eqb c0 "@"
    && (is_alnum c1 &&
        match cut_at_slash rest with
        | Some (scope_rest, String c2 pkg_rest) =>
            negb (String.eqb scope_rest "") && all_chars is_name_char scope_rest &&
            is_alnum c2 && all_chars is_name_char pkg_rest
        | _ => false
        end).
Proof. destruct c0 as [[] [] [] [] [] [] [] []]; reflexivity. Qed.

(** X13.  [isScoped] accepts exactly the names made of [@], a scope of at
    least two characters that starts with a letter or digit, one slash, and
    a package part that starts with a letter or digit, where all other
    characters are letters, digits, [_], [-] or [.]: so a name with a
    one-character scope, with a second slash or without [@] is not scoped. *)
Theorem isScoped_shape (name : string) :
  isScoped name = true ↔
  ∃ c1 scope_rest c2 pkg_rest,
    name = String "@" (String c1 scope_rest) +:+ String "/" (String c2 pkg_rest)
    ∧ is_alnum c1 = true ∧ scope_rest ≠ ""
    ∧ all_chars is_name_char scope_rest = true
    ∧ is_alnum c2 = true
    ∧ all_chars is_name_char pkg_rest = true.
Proof.
  split.
  - destruct name as [|c0 [|c1 rest]]; [done | by destruct c0 as [[] [] [] [] [] [] [] []] |].
    rewrite isScoped_cons.
    intros [Hat [H1 H]%andb_prop]%andb_prop. apply Ascii.eqb_eq in Hat. subst c0.
    destruct (cut_at_slash rest) as [[scope_rest [|c2 pkg_rest]]|] eqn:Hcut; try done.
    apply andb_prop in H as [[[Hne Hs]%andb_prop H2]%andb_prop Hp].
    exists c1, scope_rest, c2, pkg_rest. split_and!; try done.
    + simpl. by rewrite (cut_at_slash_sound _ _ _ Hcut).
    + intros ->. done.
  - intros (c1 & scope_rest & c2 & pkg_rest & -> & H1 & Hne & Hs & H2 & Hp).
    change (isScoped (String "@" (String c1 (scope_rest +:+ String "/" (String c2 pkg_rest))))
            = true).
    rewrite isScoped_cons, cut_at_slash_complete by done.
    rewrite H1, Hs, H2, Hp. simpl.
    destruct scope_rest; [done | reflexivity].
Qed.

End dependency_classifier_more.

Section workspace_scopes.
Import StartRepo Workspace Session.

Lemma before_slash_no_slash s : Bundle.all_chars (λ c, negb (Ascii.eqb c "/")) (before_slash s) = true.
Proof.
  induction s as [|c s IH]; simpl; [done|].
  destruct (Ascii.eqb c "/") eqn:E; simpl; [done | by rewrite E].
Qed.

Lemma before_slash_app a b :
  Bundle.all_chars (λ c, negb (Ascii.eqb c "/")) a = true →
  before_slash (a +:+ String "/" b) = a.
Proof.
  induction a as [|c a IH]; simpl; [done|].
  intros [Hc Ha]%andb_prop. apply negb_true_iff in Hc. rewrite Hc. by rewrite IH.
Qed.

Lemma before_slash_id a :
  Bundle.all_chars (λ c, negb (Ascii.eqb c "/")) a = true → before_slash a = a.
Proof.
  induction a as [|c a IH]; simpl; [done|].
  intros [Hc Ha]%andb_prop. apply negb_true_iff in Hc. rewrite Hc. by rewrite IH.
Qed.

Lemma all_chars_tail p c s :
  Bundle.all_chars p (String c s) = true → Bundle.all_chars p s = true.
Proof. simpl. by intros [_ H]%andb_prop. Qed.

(** X14.  [getNpmScopeFromName] gives [null] exactly for the names that do
    not start with [@]; for [@scope/rest] and for [@scope] it gives [scope]
    (when [scope] has no slash); what it gives never has a slash; and, read
    back from the package pattern [@name/*] that [createVerdaccioConfig]
    derives for a scoped item, the scope is that item's name. *)
Theorem getNpmScopeFromName_scope :
  (∀ name, getNpmScopeFromName name = None ↔ isNpmScopeName name = false)
  ∧ (∀ scope rest,
       Bundle.all_chars (λ c, negb (Ascii.eqb c "/")) scope = true →
       getNpmScopeFromName ("@" +:+ scope +:+ "/" +:+ rest) = Some scope
       ∧ getNpmScopeFromName ("@" +:+ scope) = Some scope)
  ∧ (∀ name scope, getNpmScopeFromName name = Some scope →
       Bundle.all_chars (λ c, negb (Ascii.eqb c "/")) scope = true)
  ∧ (∀ item,
       String.eqb (key item) "registry" = false →
       Bundle.all_chars (λ c, negb (Ascii.eqb c "/")) (name item) = true →
       getNpmScopeFromName (packageKey item) = Some (name item)).
Proof.
  assert (Hscope : ∀ scope rest,
            Bundle.all_chars (λ c, negb (Ascii.eqb c "/")) scope = true →
            getNpmScopeFromName ("@" +:+ scope +:+ "/" +:+ rest) = Some scope).
  { intros scope rest Hs.
    change (getNpmScopeFromName (String "@" (scope +:+ String "/" rest)) = Some scope).
    unfold getNpmScopeFromName.
    change (Some (substring_1 (String "@" (before_slash (scope +:+ String "/" rest))))
            = Some scope).
    by rewrite before_slash_app. }
  split_and!.
  - intros name. unfold getNpmScopeFromName. by destruct (isNpmScopeName name).
  - intros scope rest Hs. split; [by apply Hscope|].
    change (Some (substring_1 (String "@" (before_slash scope))) = Some scope).
    by rewrite before_slash_id.
  - intros name scope. unfold getNpmScopeFromName.
    destruct (isNpmScopeName name); simpl; [|done]. intros [= <-].
    pose proof (before_slash_no_slash name) as H.
    destruct (before_slash name) as [|c s]; [done|]. by apply all_chars_tail in H.
  - intros item Hkey Hname. unfold packageKey. rewrite Hkey. by apply Hscope.
Qed.

Section with_trim.

Variable trim : string → string.

Lemma removeEmptyString_elem scopes s :
  s ∈ removeEmptyString trim scopes ↔ Some s ∈ scopes ∧ trim s ≠ "".
Proof.
  unfold removeEmptyString. rewrite list_elem_of_omap. split.
  - intros ([str|] & Hin & Hs); [|done].
    destruct (String.eqb_spec (trim str) ""); [done|]. by injection Hs as <-.
  - intros [Hin Hs]. exists (Some s). split; [done|].
    by destruct (String.eqb_spec (trim s) "").
Qed.

(** X15.  The scopes [getWorkspaceNpmScopes] returns hold no scope twice
    and no scope that is empty once trimmed; they are exactly the non-blank
    scopes of the library nodes that have a manifest and of the root
    manifest. *)
Theorem getWorkspaceNpmScopes_scopes (projectNodes : list project_node)
    (rootManifest : manifest_file) (scopes : list string) :
  getWorkspaceNpmScopes trim projectNodes rootManifest = Ok scopes →
  NoDup scopes
  ∧ (∀ s, s ∈ scopes → trim s ≠ "")
  ∧ ∃ projectScopes rootScope,
      getNpmScopesFromProjectNodes projectNodes = Ok projectScopes
      ∧ getPackageJsonScopeIfExists rootManifest = Ok rootScope
      ∧ ∀ s, s ∈ scopes ↔ (Some s ∈ projectScopes ∨ rootScope = Some s) ∧ trim s ≠ "".
Proof.
  unfold getWorkspaceNpmScopes.
  destruct (getNpmScopesFromProjectNodes projectNodes) as [projectScopes|]; simpl; [|done].
  destruct (getPackageJsonScopeIfExists rootManifest) as [rootScope|]; simpl; [|done].
  intros [= <-]. unfold removeDuplicatesAndEmptyScopes, removeDuplicates.
  split_and!.
  - apply set_spread_NoDup.
  - intros s Hs. apply set_spread_elem, removeEmptyString_elem in Hs. by destruct Hs.
  - exists projectScopes, rootScope. split_and!; try done.
    intros s. rewrite set_spread_elem, removeEmptyString_elem, elem_of_app,
      list_elem_of_singleton. naive_solver.
Qed.

End with_trim.

(** X16.  A library node whose manifest has no [name] makes the
    computation of the workspace scopes throw (a [TypeError]), whatever the
    other nodes are; nodes that are not libraries or have no manifest are
    not looked at. *)
Theorem getNpmScopesFromProjectNodes_nameless (projectNodes : list project_node)
    (node : project_node) :
  node ∈ projectNodes →
  node_is_lib node = true →
  node_manifest node = manifest_named None →
  getNpmScopesFromProjectNodes projectNodes = Throw TypeError.
Proof.
  unfold getNpmScopesFromProjectNodes. intros Hin Hlib Hman.
  assert (Hf : node ∈ filter (λ node, isLibNodeWithPackageJson node = true) projectNodes).
  { apply list_elem_of_filter. split; [|done].
    unfold isLibNodeWithPackageJson, isNodeWithPackageJson. by rewrite Hlib, Hman. }
  induction (filter _ projectNodes) as [|n l IH]; [by apply elem_of_nil in Hf|].
  simpl. apply elem_of_cons in Hf as [<-|Hf].
  - by rewrite Hman.
  - destruct (getPackageJsonScopeIfExists (node_manifest n)) as [y|[]]; simpl; [|done].
    by rewrite (IH Hf).
Qed.

End workspace_scopes.

Section registry_items.
Import StartRepo Workspace Session.

Lemma mapM_pure {A B} (f : A → M B) (g : state → A → B) (l : list A) s :
  (∀ x, f x s = Returns (g s x) s) → mapM f l s = Returns (map (g s) l) s.
Proof.
  intros Hf. induction l as [|x l IH]; [done|].
  simpl. unfold bind. by rewrite Hf, IH.
Qed.

Lemma append_length a b : String.length (a +:+ b) = String.length a + String.length b.
Proof. induction a as [|c a IH]; simpl; [done | by rewrite IH]. Qed.

Lemma append_inj_r x : ∀ a b, a +:+ x = b +:+ x → a = b.
Proof.
  induction a as [|c a IH]; intros [|d b] H; simpl in H.
  - done.
  - apply (f_equal String.length) in H. simpl in H. rewrite !append_length in H.
    simpl in H. lia.
  - apply (f_equal String.length) in H. simpl in H. rewrite !append_length in H.
    simpl in H. lia.
  - injection H as -> H. by rewrite (IH b H).
Qed.


(** The item [getNpmRegistriesConfig] builds from a name and a key. *)
Lemma getNpmRegistriesConfig_returns npmScopes loc s :
  getNpmRegistriesConfig npmScopes loc s
  = Returns (map (λ item, {| name := item_name item; key := item_key item;
                             value_of := originalConf s (item_key item) None;
                             locationValue := originalConf s (item_key item) loc |})
                 (mapNpmScopesToConfItems npmScopes ++ [npmRegistry])) s.
Proof.
  unfold getNpmRegistriesConfig.
  apply (mapM_pure _ (λ s item, {| name := item_name item; key := item_key item;
                                   value_of := originalConf s (item_key item) None;
                                   locationValue := originalConf s (item_key item) loc |})).
  intros item. reflexivity.
Qed.

(** X17.  [getNpmRegistriesConfig] only reads: it returns, with the state
    it was given (no snapshot is taken, no command issued), one item per scope
    in order, named after the scope with the key [@scope:registry], then the
    default item [npm] with the key [registry]; each carries the effective
    value of its key and the value at the location.  When the scopes are
    distinct and none is called [npm], the items have distinct names and
    distinct package patterns. *)
Theorem getNpmRegistriesConfig_items (npmScopes : list string) (loc : location)
    (s : state) :
  ∃ items,
    getNpmRegistriesConfig npmScopes loc s = Returns items s
    ∧ map name items = npmScopes ++ ["npm"]
    ∧ map key items = map (λ scope, "@" +:+ scope +:+ ":registry") npmScopes ++ ["registry"]
    ∧ (∀ item, item ∈ items →
         value_of item = originalConf s (key item) None
         ∧ locationValue item = originalConf s (key item) loc)
    ∧ (NoDup npmScopes → "npm" ∉ npmScopes →
       NoDup (map name items) ∧ NoDup (map packageKey items)).
Proof.
  eexists. split; [apply getNpmRegistriesConfig_returns|].
  unfold mapNpmScopesToConfItems. rewrite !map_app, !map_map. simpl.
  assert (Hnames : ∀ l : list string, map (λ x : string, x) l = l) by apply map_id.
  split_and!.
  - by rewrite Hnames.
  - done.
  - intros item [Hin|Hin]%elem_of_app.
    + apply list_elem_of_fmap in Hin as (scope & -> & _). done.
    + apply list_elem_of_singleton in Hin as ->. done.
  - intros Hnd Hnpm. rewrite Hnames. split.
    + apply NoDup_app. split_and!; [done | | apply NoDup_singleton].
      intros x Hx ->%list_elem_of_singleton. done.
    + apply NoDup_app. split_and!; [| | apply NoDup_singleton].
      * assert (Hinj : Inj eq eq (λ scope : string, "@" +:+ scope +:+ "/*")).
        { intros a b H. apply (String.app_inj "@") in H. by apply append_inj_r in H. }
        by apply (NoDup_fmap_2 (λ scope : string, "@" +:+ scope +:+ "/*")).
      * intros x (scope & -> & _)%list_elem_of_fmap Hx%list_elem_of_singleton. done.
Qed.


End registry_items.

Section config_manager_more.
Import StartRepo Workspace Session.

Variable npm_fails : list event → npm_command → bool.

Local Abbreviation execSync := (StartRepo.execSync npm_fails).
Local Abbreviation set := (StartRepo.set npm_fails).
Local Abbreviation restore := (StartRepo.restore npm_fails).
Local Abbreviation restoreAll := (StartRepo.restoreAll npm_fails).
Local Abbreviation configureNpm := (StartRepo.configureNpm npm_fails).

(** ** Commands and the keys they write *)

Lemma apply_command_key (c : npm_command) (m : gmap (location * string) string) :
  apply_command c m !! command_key c = command_writes c.
Proof.
  destruct c as [n l|n v l]; unfold command_key; simpl.
  - apply lookup_delete_eq.
  - apply lookup_insert_eq.
Qed.

Lemma apply_command_other (c : npm_command) (m : gmap (location * string) string)
    (k : location * string) :
  command_key c ≠ k → apply_command c m !! k = m !! k.
Proof.
  destruct c as [n l|n v l]; unfold command_key; simpl; intros Hne.
  - by apply lookup_delete_ne.
  - by apply lookup_insert_ne.
Qed.

Lemma command_key_for name v loc : command_key (command_for name v loc) = (loc, name).
Proof. unfold command_key. by rewrite target_command_for. Qed.

Lemma command_writes_for name v loc :
  command_writes (command_for name v loc) = written_back v.
Proof.
  unfold command_for, written_back. destruct (truthy v) eqn:Hv; simpl; [|done].
  by destruct v.
Qed.

(** What commands that all write the same value under a key leave there. *)
Lemma commands_lookup (cmds : list npm_command) (k : location * string) (w : option string) :
  (∀ c, c ∈ cmds → command_key c = k → command_writes c = w) →
  ∀ m : gmap (location * string) string,
    fold_left (λ m c, apply_command c m) cmds m !! k
    = if existsb (λ c, bool_decide (command_key c = k)) cmds then w else m !! k.
Proof.
  induction cmds as [|c cmds IH]; intros Hw m; [done|]. simpl.
  rewrite IH by (intros c' Hc'; apply Hw; by right).
  destruct (existsb _ cmds); [by rewrite orb_true_r|]. rewrite orb_false_r.
  case_bool_decide as Hk.
  - rewrite <- Hk. rewrite apply_command_key. apply Hw; [by left | done].
  - by apply apply_command_other.
Qed.

(** ** One [set] *)

Lemma set_returns name v loc s s' :
  set name v loc s = Returns tt s' →
  npmrc s' = apply_command (command_for name v loc) (npmrc s)
  ∧ trace s' = trace s ++ [Exec (command_for name v loc)]
  ∧ originalConf s' = originalConf s
  ∧ childProcess s' = childProcess s
  ∧ captured name loc s'
    = Some (default (originalConf s name loc) (captured name loc s))
  ∧ (∀ n l, (n, l) ≠ (name, loc) → captured n l s' = captured n l s)
  ∧ (table_wf s → table_wf s').
Proof.
  intros H.
  destruct (storeOriginalValue_spec name loc s)
    as (s1 & Hs & Hconf & Hchild & Hfiles & Htrace & Hcap & Hother & _ & Hwf).
  destruct (set_final npm_fails name v loc s) as (s1' & Hs' & Hset & _).
  rewrite Hs in Hs'. inversion Hs'; subst s1'; clear Hs'.
  rewrite Hset in H. apply execSync_returns in H. subst s'.
  unfold after_commands, captured, table_wf. simpl.
  rewrite Hfiles, Htrace, Hconf, Hchild. split_and!; try done.
Qed.

Lemma set_throws name v loc s e s' :
  set name v loc s = Throws e s' →
  e = CommandFailed (command_for name v loc)
  ∧ npmrc s' = npmrc s
  ∧ trace s' = trace s ++ [Exec (command_for name v loc)]
  ∧ captured name loc s'
    = Some (default (originalConf s name loc) (captured name loc s))
  ∧ (∀ n l, (n, l) ≠ (name, loc) → captured n l s' = captured n l s).
Proof.
  intros H.
  destruct (storeOriginalValue_spec name loc s)
    as (s1 & Hs & Hconf & Hchild & Hfiles & Htrace & Hcap & Hother & _ & Hwf).
  destruct (set_final npm_fails name v loc s) as (s1' & Hs' & Hset & _).
  rewrite Hs in Hs'. inversion Hs'; subst s1'; clear Hs'.
  rewrite Hset in H.
  destruct (execSync_spec npm_fails (command_for name v loc) s1) as [[Hx _]|[Hx _]];
    rewrite Hx in H; inversion H; subst e s'; clear H.
  unfold captured in *. simpl. rewrite Hfiles, Htrace. by split_and!.
Qed.

(** X19.  A [set] touches one key at one location only.  When it returns,
    that key has the value given, or no value when the value given is
    undefined or empty, and every other key of the configuration files is
    as before.  When its command fails, no value has changed at all, but the
    snapshot of the key has been taken all the same.  In both cases no other
    snapshot is changed. *)
Theorem set_frame (name : string) (v : value) (loc : location) (s : state) :
  let after := final_state (set name v loc s) in
  (∀ k, k ≠ (loc, name) → npmrc after !! k = npmrc s !! k)
  ∧ match set name v loc s with
    | Returns _ _ => npmrc after !! (loc, name) = written_back v
    | Throws e _ => e = CommandFailed (command_for name v loc) ∧ npmrc after = npmrc s
    end
  ∧ is_Some (captured name loc after)
  ∧ (∀ n l, (n, l) ≠ (name, loc) → captured n l after = captured n l s).
Proof.
  intros after. subst after.
  destruct (set name v loc s) as [[] s'|e s'] eqn:H; simpl.
  - destruct (set_returns _ _ _ _ _ H) as (Hf & _ & _ & _ & Hcap & Hother & _).
    rewrite Hf. split; [|split; [|split; [by rewrite Hcap | done]]].
    + intros k Hk. apply apply_command_other. rewrite command_key_for. congruence.
    + pose proof (apply_command_key (command_for name v loc) (npmrc s)) as Hk.
      by rewrite command_key_for, command_writes_for in Hk.
  - destruct (set_throws _ _ _ _ _ _ H) as (He & Hf & _ & Hcap & Hother).
    rewrite Hf. split; [done|]. split; [done|]. split; [by rewrite Hcap | done].
Qed.

(** ** Sequences of [set] *)

Lemma forEach_app {A} (body : A → M unit) (l1 l2 : list A) s :
  forEach body (l1 ++ l2) s = (forEach body l1 ;;; forEach body l2) s.
Proof.
  revert s. induction l1 as [|x l1 IH]; intros s; [done|].
  simpl. unfold bind. destruct (body x s) as [[] s1|e s1]; [|done]. apply IH.
Qed.

Lemma forEach_map {A B} (f : A → B) (body : B → M unit) (l : list A) s :
  forEach body (map f l) s = forEach (λ x, body (f x)) l s.
Proof.
  revert s. induction l as [|x l IH]; intros s; [done|].
  simpl. unfold bind. destruct (body (f x) s) as [[] s1|e s1]; [|done]. apply IH.
Qed.

Lemma configureNpm_as_calls npmRegistryConfig registryConfig loc s :
  configureNpm npmRegistryConfig registryConfig loc s
  = forEach (λ '(n, v, l), set n v l)
            (configureNpm_calls npmRegistryConfig registryConfig loc) s.
Proof.
  unfold StartRepo.configureNpm, configureNpm_calls.
  rewrite forEach_app. unfold bind. rewrite forEach_map.
  destruct (forEach _ npmRegistryConfig s) as [[] s1|e s1]; [|done].
  simpl. unfold bind. by destruct (set _ _ _ s1) as [[] s2|e s2].
Qed.

Lemma forEach_set_returns (calls : list (string * value * location)) : ∀ s s',
  forEach (λ '(n, v, l), set n v l) calls s = Returns tt s' →
  npmrc s' = fold_left (λ m c, apply_command c m)
               (map (λ '(n, v, l), command_for n v l) calls) (npmrc s)
  ∧ trace s' = trace s ++ map Exec (map (λ '(n, v, l), command_for n v l) calls)
  ∧ originalConf s' = originalConf s
  ∧ childProcess s' = childProcess s
  ∧ (table_wf s → table_wf s').
Proof.
  induction calls as [|[[n v] l] calls IH]; intros s s' H.
  - inversion H. simpl. by rewrite app_nil_r.
  - rewrite forEach_cons in H.
    destruct (set n v l s) as [[] s1|] eqn:E; [|done].
    destruct (set_returns _ _ _ _ _ E) as (Hf & Ht & Hc & Hp & _ & _ & Hwf).
    destruct (IH _ _ H) as (Hf' & Ht' & Hc' & Hp' & Hwf').
    simpl. rewrite Hf', Ht', Hc', Hp', Hf, Ht, Hc, Hp, <- app_assoc.
    split_and!; try done. intros Hs. apply Hwf', Hwf, Hs.
Qed.

Lemma commands_untouched (cmds : list npm_command) (k : location * string)
    (m : gmap (location * string) string) :
  (∀ c, c ∈ cmds → command_key c ≠ k) →
  fold_left (λ m c, apply_command c m) cmds m !! k = m !! k.
Proof.
  intros Hne. rewrite (commands_lookup cmds k (m !! k)).
  - by destruct (existsb _ cmds).
  - intros c Hc Hk. by destruct (Hne c Hc).
Qed.

Lemma commands_written (cmds : list npm_command) (k : location * string)
    (w : option string) (m : gmap (location * string) string) :
  (∀ c, c ∈ cmds → command_key c = k → command_writes c = w) →
  (∃ c, c ∈ cmds ∧ command_key c = k) →
  fold_left (λ m c, apply_command c m) cmds m !! k = w.
Proof.
  intros Hw (c & Hc & Hk). rewrite (commands_lookup cmds k w Hw).
  assert (He : existsb (λ c, bool_decide (command_key c = k)) cmds = true);
    [|by rewrite He].
  apply existsb_exists. exists c. split; [by apply list_elem_of_In|].
  by apply bool_decide_eq_true_2.
Qed.

Lemma configureNpm_commands (npmRegistryConfig : list NpmRegistryConfigItem)
    (port : Z) (loc : location) :
  let settings := getLocalRegistrySettings port in
  map (λ '(n, v, l), command_for n v l) (configureNpm_calls npmRegistryConfig settings loc)
  = map (λ item, config_set (key item) (registry settings) loc) npmRegistryConfig
    ++ [config_set (authTokenKey settings) "secretVerdaccioToken" loc].
Proof.
  intros settings. unfold configureNpm_calls. rewrite map_app, map_map. reflexivity.
Qed.

(** X20.  When [configureNpm] returns, the token key holds the token and
    every registry key of the items holds the URL of the local registry, at
    the location asked for; no other key of the configuration files has
    changed; and every command it issued was a [set], none a [delete]. *)
Theorem configureNpm_points_at_local_registry
    (npmRegistryConfig : list NpmRegistryConfigItem) (port : Z) (loc : location)
    (s s' : state) :
  let settings := getLocalRegistrySettings port in
  configureNpm npmRegistryConfig settings loc s = Returns tt s' →
  npmrc s' !! (loc, authTokenKey settings) = Some "secretVerdaccioToken"
  ∧ (∀ item, item ∈ npmRegistryConfig → key item ≠ authTokenKey settings →
       npmrc s' !! (loc, key item) = Some (registry settings))
  ∧ (∀ k : location * string,
       (∀ item, item ∈ npmRegistryConfig → k ≠ (loc, key item)) →
       k ≠ (loc, authTokenKey settings) → npmrc s' !! k = npmrc s !! k)
  ∧ ∃ cmds, trace s' = trace s ++ map Exec cmds
            ∧ ∀ c, c ∈ cmds → ∃ n v, c = config_set n v loc.
Proof.
  intros settings H. rewrite configureNpm_as_calls in H.
  destruct (forEach_set_returns _ _ _ H) as (Hf & Ht & _).
  pose proof (configureNpm_commands npmRegistryConfig port loc) as Hcmds.
  fold settings in Hcmds. cbv zeta in Hcmds. rewrite Hcmds in Hf, Ht. clear Hcmds H.
  set (items := map (λ item, config_set (key item) (registry settings) loc)
                    npmRegistryConfig) in *.
  set (token := config_set (authTokenKey settings) "secretVerdaccioToken" loc) in *.
  assert (Hitems : ∀ c, c ∈ items →
            ∃ item, item ∈ npmRegistryConfig
                    ∧ c = config_set (key item) (registry settings) loc).
  { intros c (item & -> & Hitem)%list_elem_of_fmap. by exists item. }
  rewrite Hf. split_and!.
  - rewrite fold_left_app. simpl. apply (apply_command_key token).
  - intros item Hitem Hne. apply commands_written.
    + intros c [Hc|Hc%list_elem_of_singleton]%elem_of_app Hk.
      * by destruct (Hitems c Hc) as (item' & _ & ->).
      * subst c. unfold command_key, token in Hk. cbn [target fst snd] in Hk.
        injection Hk as Hk. by destruct Hne.
    + exists (config_set (key item) (registry settings) loc). split; [|done].
      apply elem_of_app. left. apply list_elem_of_fmap. by exists item.
  - intros k Hk Htoken. apply commands_untouched.
    intros c [Hc|Hc%list_elem_of_singleton]%elem_of_app Heq.
    + destruct (Hitems c Hc) as (item & Hitem & ->). by apply (Hk item Hitem).
    + subst c. by apply Htoken.
  - exists (items ++ [token]). split; [done|].
    intros c [Hc|Hc%list_elem_of_singleton]%elem_of_app.
    + destruct (Hitems c Hc) as (item & _ & ->). by eexists _, _.
    + subst c. by eexists _, _.
Qed.

(** ** A session: [set]s, then [restoreAll] *)

Lemma map_get_Some_elem {K V} `{EqDecision K} (k : K) (v : V) (m : list (K * V)) :
  map_get k m = Some v → (k, v) ∈ m.
Proof.
  induction m as [|[k' v'] m IH]; simpl; [done|].
  destruct (decide (k' = k)) as [->|Hne].
  - intros [= ->]. by left.
  - intros H. right. by apply IH.
Qed.

Lemma map_get_NoDup {K V} `{EqDecision K} (k : K) (v : V) (m : list (K * V)) :
  NoDup (map fst m) → (k, v) ∈ m → map_get k m = Some v.
Proof.
  induction m as [|[k' v'] m IH]; simpl; intros Hnd Hin; [by apply elem_of_nil in Hin|].
  apply NoDup_cons in Hnd as [Hk' Hnd].
  apply elem_of_cons in Hin as [[= -> ->]|Hin]; [by rewrite decide_True|].
  destruct (decide (k' = k)) as [->|Hne]; [|by apply IH].
  exfalso. apply Hk'. apply list_elem_of_fmap. by exists (k, v).
Qed.

Lemma restore_commands_elem (t : list (location * list (string * value))) (c : npm_command) :
  c ∈ restore_commands t
  ↔ ∃ l vals n v, map_get l t = Some vals ∧ (n, v) ∈ vals ∧ c = command_for n v l.
Proof.
  unfold restore_commands. rewrite list_elem_of_In, in_flat_map. split.
  - intros (l & Hl & Hc). apply list_elem_of_In in Hl, Hc.
    destruct (map_get_key l t Hl) as [vals Hvals]. rewrite Hvals in Hc. simpl in Hc.
    apply list_elem_of_fmap in Hc as ([n v] & -> & Hin). by exists l, vals, n, v.
  - intros (l & vals & n & v & Hvals & Hin & ->). exists l. split.
    + apply list_elem_of_In. destruct (decide (l ∈ map fst t)) as [|Hfresh]; [done|].
      apply map_get_fresh in Hfresh. congruence.
    + apply list_elem_of_In. rewrite Hvals. simpl. apply list_elem_of_fmap.
      by exists (n, v).
Qed.

Lemma written_back_id (x : value) : x ≠ Some "" → written_back x = x.
Proof.
  unfold written_back. destruct x as [x|]; [|done]. simpl.
  destruct (String.eqb_spec x "") as [->|]; [by intros Hne; destruct Hne | done].
Qed.

Lemma restoreAll_restores (files : gmap (location * string) string)
    (name : string) (loc : location) (s s' : state) :
  table_wf s → restorable_at files name loc s →
  restoreAll s = Returns tt s' →
  npmrc s' !! (loc, name) = files !! (loc, name).
Proof.
  intros Hwf Hok H. apply restoreAll_returns in H. subst s'.
  unfold after_commands. simpl. unfold restorable_at in Hok.
  destruct (captured name loc s) as [x|] eqn:Hcap.
  - destruct Hok as [Hx Hne]. rewrite <- Hx, <- (written_back_id x Hne).
    unfold captured in Hcap.
    destruct (map_get loc (originalValuesForLocations s)) as [vals|] eqn:Hvals; [|done].
    simpl in Hcap. apply commands_written.
    + intros c (l & vals' & n & v & Hvals' & Hin & ->)%restore_commands_elem Hk.
      rewrite command_key_for in Hk. injection Hk as -> ->.
      rewrite Hvals in Hvals'. injection Hvals' as <-.
      rewrite (map_get_NoDup _ _ _ (Hwf _ _ Hvals) Hin) in Hcap. injection Hcap as ->.
      apply command_writes_for.
    + exists (command_for name x loc). split; [|apply command_key_for].
      apply restore_commands_elem. exists loc, vals, name, x.
      split; [done|]. split; [by apply map_get_Some_elem | done].
  - rewrite <- Hok. apply commands_untouched.
    intros c (l & vals' & n & v & Hvals' & Hin & ->)%restore_commands_elem Hk.
    rewrite command_key_for in Hk. injection Hk as -> ->.
    unfold captured in Hcap. rewrite Hvals' in Hcap. simpl in Hcap.
    destruct (map_get_elem _ _ _ Hin) as [y Hy]. congruence.
Qed.

Lemma set_restorable (files : gmap (location * string) string)
    (name : string) (loc : location) n v l (s s' : state) :
  ((n, l) = (name, loc) →
   originalConf s name loc = files !! (loc, name) ∧ originalConf s name loc ≠ Some "") →
  restorable_at files name loc s →
  set n v l s = Returns tt s' →
  restorable_at files name loc s'.
Proof.
  intros Hconf Hok H.
  destruct (set_returns _ _ _ _ _ H) as (Hf & _ & _ & _ & Hcap & Hother & _).
  unfold restorable_at in *. destruct (decide ((n, l) = (name, loc))) as [[= -> ->]|Hne].
  - rewrite Hcap. destruct (captured name loc s); simpl; [done|]. by apply Hconf.
  - rewrite (Hother name loc) by congruence.
    destruct (captured name loc s); [done|].
    rewrite Hf, apply_command_other; [done|].
    rewrite command_key_for. congruence.
Qed.

Lemma forEach_set_restorable (files : gmap (location * string) string)
    (name : string) (loc : location) (calls : list (string * value * location)) :
  ∀ s s',
    ((∃ v, (name, v, loc) ∈ calls) →
     originalConf s name loc = files !! (loc, name) ∧ originalConf s name loc ≠ Some "") →
    restorable_at files name loc s →
    forEach (λ '(n, v, l), set n v l) calls s = Returns tt s' →
    restorable_at files name loc s'.
Proof.
  induction calls as [|[[n v] l] calls IH]; intros s s' Hconf Hok H.
  - by inversion H; subst.
  - rewrite forEach_cons in H.
    destruct (set n v l s) as [[] s1|] eqn:E; [|done].
    destruct (set_returns _ _ _ _ _ E) as (_ & _ & Hc & _).
    apply (IH s1 s'); [| |done].
    + rewrite Hc. intros [v' Hin]. apply Hconf. exists v'. by right.
    + apply (set_restorable files name loc n v l s s1); [|done|done].
      intros [= -> ->]. apply Hconf. exists v. by left.
Qed.

(** X21.  A session of [set]s followed by [restoreAll], all returning,
    leaves a key of the configuration files as it was at the start whenever
    either no [set] was made for it, or the value the manager read for it
    is the one the files hold and is not the empty string. *)
Theorem session_round_trip
    (conf : string → location → value) (files : gmap (location * string) string)
    (calls : list (string * value * location)) (name : string) (loc : location)
    (s1 s2 : state) :
  forEach (λ '(n, v, l), set n v l) calls (NpmConfManager conf files) = Returns tt s1 →
  restoreAll s1 = Returns tt s2 →
  ((∃ v, (name, v, loc) ∈ calls) →
   conf name loc = files !! (loc, name) ∧ conf name loc ≠ Some "") →
  npmrc s2 !! (loc, name) = files !! (loc, name).
Proof.
  intros Hsets Hrestore Hconf.
  apply (restoreAll_restores files name loc s1 s2); [| |done].
  - destruct (forEach_set_returns _ _ _ Hsets) as (_ & _ & _ & _ & Hwf).
    apply Hwf. by intros l vals.
  - by apply (forEach_set_restorable files name loc calls (NpmConfManager conf files)).
Qed.

(** ** A [restoreAll] whose command fails *)

Lemma execSync_throws c s e s' :
  execSync c s = Throws e s' →
  e = CommandFailed c ∧ s' = emit (Exec c) s ∧ npm_fails (trace s) c = true.
Proof.
  destruct (execSync_spec npm_fails c s) as [[-> _]|[-> Hf]]; [done|].
  by intros [= <- <-].
Qed.

Lemma forEach_set_captured_throws loc vals : ∀ s e s',
  (∀ n v, (n, v) ∈ vals → is_Some (captured n loc s)) →
  forEach (λ '(n, v), set n v loc) vals s = Throws e s' →
  ∃ done c rest,
    map (λ '(n, v), command_for n v loc) vals = done ++ c :: rest
    ∧ e = CommandFailed c
    ∧ npm_fails (trace (after_commands done s)) c = true
    ∧ s' = emit (Exec c) (after_commands done s).
Proof.
  induction vals as [|[n v] vals IH]; intros s e s' Hc H; [done|].
  rewrite forEach_cons in H. rewrite set_captured in H by (eapply Hc; left).
  destruct (execSync (command_for n v loc) s) as [[] s1|e1 s1] eqn:E.
  - apply execSync_returns in E. subst s1.
    apply IH in H as (done & c & rest & Hcmds & -> & Hf & ->).
    + exists (command_for n v loc :: done), c, rest.
      rewrite (after_commands_cons (command_for n v loc) done s).
      split_and!; [|done|done|done]. cbn [map]. by rewrite Hcmds.
    + intros n' v' Hin. rewrite captured_after_commands. eapply Hc. by right.
  - injection H as <- <-. apply execSync_throws in E as (-> & -> & Hf).
    exists [], (command_for n v loc), (map (λ '(n, v), command_for n v loc) vals).
    by rewrite after_commands_nil.
Qed.

Lemma forEach_restore_throws locs : ∀ s e s',
  (∀ loc, loc ∈ locs → is_Some (map_get loc (originalValuesForLocations s))) →
  forEach restore locs s = Throws e s' →
  ∃ done c rest,
    flat_map (λ loc, map (λ '(n, v), command_for n v loc)
                         (default [] (map_get loc (originalValuesForLocations s))))
             locs = done ++ c :: rest
    ∧ e = CommandFailed c
    ∧ npm_fails (trace (after_commands done s)) c = true
    ∧ s' = emit (Exec c) (after_commands done s).
Proof.
  induction locs as [|loc locs IH]; intros s e s' Hkeys H; [done|].
  rewrite forEach_cons in H.
  destruct (Hkeys loc) as [vals Hloc]; [by left|].
  simpl flat_map. rewrite Hloc. simpl default.
  destruct (restore loc s) as [[] s1|e1 s1] eqn:E.
  - apply (restore_returns _ _ _ _ _ Hloc) in E. subst s1.
    apply IH in H as (done & c & rest & Hcmds & -> & Hf & ->).
    + simpl in Hcmds. rewrite Hcmds.
      exists (map (λ '(n, v), command_for n v loc) vals ++ done), c, rest.
      by rewrite <- app_assoc, after_commands_app.
    + intros l Hl. simpl. apply Hkeys. by right.
  - injection H as <- <-. rewrite (restore_present _ _ _ _ Hloc) in E.
    apply forEach_set_captured_throws in E as (done & c & rest & Hcmds & -> & Hf & ->).
    + rewrite Hcmds. exists done, c, (rest ++ flat_map
        (λ loc, map (λ '(n, v), command_for n v loc)
                    (default [] (map_get loc (originalValuesForLocations s)))) locs).
      by rewrite <- app_assoc.
    + intros n v Hin. unfold captured. rewrite Hloc. simpl. by eapply map_get_elem.
Qed.

(** X22.  A [restoreAll] that throws has stopped at the first command that
    failed: the commands of the snapshots before it were run, in order; the
    error names the failing command; and no command after it was issued, so
    the keys still to be restored keep the values they had. *)
Theorem restoreAll_stops_at_first_failure (s s' : state) (e : error) :
  restoreAll s = Throws e s' →
  ∃ done c rest,
    restore_commands (originalValuesForLocations s) = done ++ c :: rest
    ∧ e = CommandFailed c
    ∧ npm_fails (trace s ++ map Exec done) c = true
    ∧ npmrc s' = fold_left (λ m c, apply_command c m) done (npmrc s)
    ∧ trace s' = trace s ++ map Exec done ++ [Exec c]
    ∧ originalValuesForLocations s' = originalValuesForLocations s.
Proof.
  unfold StartRepo.restoreAll. intros H.
  apply forEach_restore_throws in H as (done & c & rest & Hcmds & -> & Hf & ->).
  - exists done, c, rest. simpl. by rewrite <- app_assoc.
  - intros loc. apply map_get_key.
Qed.

(** ** The executor and the exit handler *)

Section exit_handler_more.

Variable kill_throws : option signal → bool.

Local Abbreviation kill_child := (StartRepo.kill_child kill_throws).
Local Abbreviation processExitListener :=
  (StartRepo.processExitListener npm_fails kill_throws).
Local Abbreviation runExecutor := (StartRepo.runExecutor npm_fails).

Lemma runExecutor_returns_state options npmScopes events s r s' :
  runExecutor true options npmScopes events s = Returns r s' →
  ∃ items config s1,
    configureNpm items (getLocalRegistrySettings (options_port options))
                 (options_location options)
                 (emit (WriteYaml ".verdaccio/generated_config.yaml" config) s)
    = Returns tt s1
    ∧ originalConf s' = originalConf s1
    ∧ originalValuesForLocations s' = originalValuesForLocations s1
    ∧ childProcess s' = true
    ∧ npmrc s' = npmrc s1
    ∧ trace s' = trace s1.
Proof.
  unfold StartRepo.runExecutor. simpl. unfold bind.
  rewrite getNpmRegistriesConfig_returns.
  destruct (StartRepo.configureNpm _ _ _ _ _) as [[] s1|] eqn:E; [|done].
  unfold ret. intros [= _ <-]. by eexists _, _, s1.
Qed.

(** X23.  The exit handler throws in one case only: there is a child
    process and [kill] rejects the signal.  The error is that of [kill], and
    nothing was done: no command was issued, so the configuration is not
    restored. *)
Theorem processExitListener_throws_iff (sig : option signal) (s s' : state) (e : error) :
  processExitListener sig s = Throws e s'
  ↔ childProcess s = true ∧ kill_throws sig = true ∧ e = UnknownSignal sig ∧ s' = s.
Proof.
  unfold StartRepo.processExitListener, StartRepo.kill_child, bind, try_catch. split.
  - destruct (childProcess s); [destruct (kill_throws sig)|].
    + by intros [= <- <-].
    + by destruct (restoreAll _) as [[] ?|? ?].
    + by destruct (restoreAll _) as [[] ?|? ?].
  - intros (-> & -> & -> & ->). done.
Qed.

(** X24.  A whole session.  The executor returns, then the exit handler
    runs and logs no error.  If every value the manager read at the
    location of the options was the one the files held, and none was the
    empty string, the configuration files are what they were before the
    executor started; and the child process was sent the signal. *)
Theorem session_restores_configuration
    (options : StartRepoExecutorSchema) (npmScopes : list string)
    (events : list child_event) (sig : option signal)
    (conf : string → location → value) (files : gmap (location * string) string)
    (r : option ExecutorResult) (s1 s2 : state) :
  let loc := options_location options in
  (∀ name, conf name loc = files !! (loc, name) ∧ conf name loc ≠ Some "") →
  runExecutor true options npmScopes events (NpmConfManager conf files) = Returns r s1 →
  processExitListener sig s1 = Returns tt s2 →
  (∀ e, ConsoleError e ∉ trace s2) →
  npmrc s2 = files ∧ Kill sig ∈ trace s2.
Proof.
  intros loc Hconf Hrun Hexit Hlog.
  destruct (runExecutor_returns_state _ _ _ _ _ _ Hrun)
    as (items & config & sA & Hcfg & Hc1 & Ht1 & Hchild & Hf1 & Htr1).
  rewrite configureNpm_as_calls in Hcfg.
  set (s0 := emit (WriteYaml ".verdaccio/generated_config.yaml" config)
                  (NpmConfManager conf files)) in *.
  set (calls := configureNpm_calls items _ _) in *.
  unfold StartRepo.processExitListener, StartRepo.kill_child, bind, try_catch in Hexit.
  rewrite Hchild in Hexit. destruct (kill_throws sig); [done|].
  destruct (restoreAll (emit (Kill sig) s1)) as [[] s2'|e s2'] eqn:Hrestore.
  2:{ injection Hexit as <-. exfalso. apply (Hlog e). simpl.
      apply elem_of_app. right. by left. }
  injection Hexit as ->. split.
  - apply map_eq. intros [l n].
    apply (restoreAll_restores files n l (emit (Kill sig) s1) s2); [| |done].
    + destruct (forEach_set_returns _ _ _ Hcfg) as (_ & _ & _ & _ & Hwf).
      intros l' vals. simpl. rewrite Ht1. apply Hwf. by intros l'' vals'.
    + assert (HA : restorable_at files n l sA).
      { apply (forEach_set_restorable files n l calls s0); [|done|done].
        intros [v Hin]. simpl.
        assert (l = loc) as ->; [|apply Hconf].
        apply elem_of_app in Hin as [Hin|Hin%list_elem_of_singleton].
        - by apply list_elem_of_fmap in Hin as (item & [= _ _ ->] & _).
        - by injection Hin. }
      unfold restorable_at, captured in *. simpl. by rewrite Ht1, Hf1.
  - apply restoreAll_returns in Hrestore. subst s2. simpl.
    apply elem_of_app. left. apply elem_of_app. right. by left.
Qed.

End exit_handler_more.

End config_manager_more.

Section publish_script.
Import Publish.

Lemma endsWith_append (a suffix : string) : endsWith (a +:+ suffix) suffix = true.
Proof.
  induction a as [|c a IH].
  - change (endsWith suffix suffix = true). destruct suffix; simpl.
    + done.
    + by rewrite Ascii.eqb_refl, String.eqb_refl.
  - change (endsWith (String c (a +:+ suffix)) suffix = true).
    simpl. rewrite IH. apply orb_true_r.
Qed.

Lemma endsWith_sound (s suffix : string) :
  endsWith s suffix = true → ∃ a, s = a +:+ suffix.
Proof.
  induction s as [|c s IH]; intros H.
  - assert (H' : String.eqb "" suffix = true) by (by destruct suffix).
    apply String.eqb_eq in H'. exists "". by rewrite <- H'.
  - change ((String.eqb (String c s) suffix || endsWith s suffix) = true) in H.
    apply orb_true_iff in H as [H|H].
    + apply String.eqb_eq in H. exists "". by rewrite <- H.
    + destruct (IH H) as [a ->]. by exists (String c a).
Qed.

(** X25.  The version the publish script writes always ends with the
    dash and the tag; it is the version read when that already ends so, and
    the version read followed by the dash and the tag otherwise; so
    running the script again on its own output changes nothing. *)
Theorem devVersion_tagged (tag version : string) :
  (∃ a, devVersion tag version = a +:+ "-" +:+ tag)
  ∧ (devVersion tag version = version ∨ devVersion tag version = version +:+ "-" +:+ tag)
  ∧ devVersion tag (devVersion tag version) = devVersion tag version.
Proof.
  assert (Htagged : endsWith (devVersion tag version) ("-" +:+ tag) = true).
  { unfold devVersion. destruct (endsWith version _) eqn:E; [done|].
    apply endsWith_append. }
  split_and!.
  - by apply endsWith_sound.
  - unfold devVersion. destruct (endsWith version _); [by left | by right].
  - unfold devVersion at 1. by rewrite Htagged.
Qed.

End publish_script.

Section manifest_merger_scenarios.
Import Bundle Reread.


Lemma merger_with_nothing_to_add_witness :
  merged Sample.world Sample.tree_at Sample.put_tree Sample.version_at
      Scenario.declared_project Sample.empty_disk
  = Ok (with_defaults (publishPackageJson Scenario.declared_project), Sample.empty_disk).
Proof.
  apply (merger_with_nothing_to_add Sample.tree_at Sample.put_tree Sample.version_at
           Scenario.declared_project Sample.empty_disk).
  - intros dependency ->%list_elem_of_singleton. vm_compute. reflexivity.
  - intros dependency ->%list_elem_of_singleton. vm_compute. reflexivity.
Defined.


Lemma merger_first_npm_version_witness :
  let pj := with_defaults (publishPackageJson Scenario.fresh_project) in
  let pj' := {| dependencies := {["@acme/ui" := Some "1.2.3"; "lodash" := Some "4.17.21"]};
                devDependencies := ∅; peerDependencies := ∅; optionalDependencies := ∅;
                bundleDependencies := ["@acme/ui"] |} in
  dependencies pj' !! "lodash" = Some (Some "4.17.21")
  ∧ written (dependencies pj') !! "lodash" = Some "4.17.21"
  ∧ ∃ added, bundleDependencies pj' = bundleDependencies pj ++ added ∧ "lodash" ∉ added.
Proof.
  intros pj pj'.
  apply (merger_first_npm_version Sample.tree_at Sample.put_tree Sample.version_at
           Scenario.fresh_project Sample.disk Scenario.merged_disk pj' [] []
           Sample.lodash_new).
  - vm_compute. reflexivity.
  - reflexivity.
  - vm_compute. reflexivity.
  - by intros l ->%list_elem_of_singleton.
  - by intros d Hd%elem_of_nil.
Defined.

Lemma merger_second_run_witness :
  merged Sample.world Sample.tree_at Sample.put_tree Sample.version_at
    {| publishPackageJson := reread Scenario.merged_manifest;
       publishPackageJsonPath := publishPackageJsonPath Sample.project;
       publishNodeModulesPath := publishNodeModulesPath Sample.project;
       info_libDeps := info_libDeps Sample.project;
       info_npmDeps := info_npmDeps Sample.project |} Sample.empty_disk
  = Ok (Scenario.merged_manifest, Sample.empty_disk).
Proof.
  apply (merger_second_run Sample.tree_at Sample.put_tree Sample.version_at
           Sample.project Sample.disk Scenario.merged_disk Sample.empty_disk
           Scenario.merged_manifest).
  - vm_compute. reflexivity.
  - intros n. unfold Scenario.merged_manifest. cbn [dependencies devDependencies
      peerDependencies optionalDependencies]. rewrite lookup_empty. split_and!; try done.
    intros [[_ H]|[_ [_ H]%lookup_singleton_Some]]%lookup_insert_Some; done.
Defined.

Lemma merger_fails_without_output_witness :
  (∃ e, updateDependencies2 Sample.world Sample.tree_at Sample.put_tree Sample.version_at
          Sample.writeJsonFile Scenario.unbuilt_project Sample.empty_disk = Throw e)
  ∧ runExecutor Sample.world Sample.tree_at Sample.put_tree Sample.version_at
      Sample.writeJsonFile Scenario.unbuilt_project Sample.empty_disk
    = (false, None).
Proof.
  apply (merger_fails_without_output Sample.tree_at Sample.put_tree Sample.version_at
           Sample.writeJsonFile Scenario.unbuilt_project Sample.empty_disk Scenario.unbuilt).
  - by left.
  - vm_compute. reflexivity.
  - by intros l ->%list_elem_of_singleton.
Defined.

End manifest_merger_scenarios.

Section folder_copier_scenarios.
Import Fs.

Lemma copyFolderSync_into_nothing_witness :
  copyFolderSync Scenario.source_tree None = Ok Scenario.source_tree.
Proof.
  apply (copyFolderSync_into_nothing
           [("package.json", File ["1"%byte]);
            ("src", Dir [("index.js", File []); ("empty", Dir [])])]).
  vm_compute. reflexivity.
Defined.


Lemma copyFolderSync_keeps_destination_files_witness :
  let after := Dir [("README.md", File ["r"%byte]); ("package.json", File ["1"%byte]);
                    ("src", Dir [("index.js", File []); ("empty", Dir [])])] in
  file_at ["README.md"] after = Some ["r"%byte].
Proof.
  intros after.
  apply (copyFolderSync_keeps_destination_files Scenario.source_tree
           (Some Scenario.destination_tree) after ["README.md"] ["r"%byte]).
  - vm_compute. reflexivity.
  - vm_compute. reflexivity.
  - reflexivity.
  - reflexivity.
Defined.

End folder_copier_scenarios.

Section registry_scenarios.
Import StartRepo Workspace Session.

Lemma getWorkspaceNpmScopes_scopes_witness :
  let scopes := ["acme"] in
  NoDup scopes
  ∧ (∀ s, s ∈ scopes → Scenario.trim s ≠ "")
  ∧ ∃ projectScopes rootScope,
      getNpmScopesFromProjectNodes Scenario.workspace_nodes = Ok projectScopes
      ∧ getPackageJsonScopeIfExists (manifest_named (Some "@acme/workspace")) = Ok rootScope
      ∧ ∀ s, s ∈ scopes ↔ (Some s ∈ projectScopes ∨ rootScope = Some s)
                           ∧ Scenario.trim s ≠ "".
Proof.
  intros scopes.
  apply (getWorkspaceNpmScopes_scopes Scenario.trim Scenario.workspace_nodes
           (manifest_named (Some "@acme/workspace")) scopes).
  vm_compute. reflexivity.
Defined.

Lemma getNpmScopesFromProjectNodes_nameless_witness :
  getNpmScopesFromProjectNodes (Scenario.workspace_nodes ++ [Scenario.nameless_node])
  = Throw TypeError.
Proof.
  apply (getNpmScopesFromProjectNodes_nameless
           (Scenario.workspace_nodes ++ [Scenario.nameless_node]) Scenario.nameless_node).
  - apply elem_of_app. right. by left.
  - reflexivity.
  - reflexivity.
Defined.


Lemma configureNpm_points_at_local_registry_witness :
  let items := [ {| name := "acme"; key := "@acme:registry";
                    value_of := None; locationValue := None |};
                 {| name := "npm"; key := "registry";
                    value_of := Some "https://npm.acme.test/";
                    locationValue := Some "https://npm.acme.test/" |} ] in
  let settings := getLocalRegistrySettings 4873 in
  let s := NpmConfManager Scenario.conf Scenario.files in
  let s' := final_state (configureNpm Sample.never_fails items settings (Some "user") s) in
  npmrc s' !! (Some "user", authTokenKey settings) = Some "secretVerdaccioToken"
  ∧ (∀ item, item ∈ items → key item ≠ authTokenKey settings →
       npmrc s' !! (Some "user", key item) = Some (registry settings))
  ∧ (∀ k : location * string,
       (∀ item, item ∈ items → k ≠ (Some "user", key item)) →
       k ≠ (Some "user", authTokenKey settings) → npmrc s' !! k = npmrc s !! k)
  ∧ ∃ cmds, trace s' = trace s ++ map Exec cmds
            ∧ ∀ c, c ∈ cmds → ∃ n v, c = config_set n v (Some "user").
Proof.
  intros items settings s s'.
  apply (configureNpm_points_at_local_registry Sample.never_fails items 4873 (Some "user")
           s s').
  reflexivity.
Defined.

Lemma session_round_trip_witness :
  let calls := [("registry", Some "http://localhost:4873/", Some "user");
                ("registry", None, Some "user")] in
  let s0 := NpmConfManager Scenario.conf Scenario.files in
  let s1 := final_state (forEach (λ '(n, v, l), StartRepo.set Sample.never_fails n v l)
                                 calls s0) in
  let s2 := final_state (restoreAll Sample.never_fails s1) in
  npmrc s2 !! (Some "user", "registry") = Scenario.files !! (Some "user", "registry").
Proof.
  intros calls s0 s1 s2.
  apply (session_round_trip Sample.never_fails Scenario.conf Scenario.files calls
           "registry" (Some "user") s1 s2).
  - reflexivity.
  - reflexivity.
  - intros _. split; [reflexivity|]. vm_compute. discriminate.
Defined.

Lemma session_restores_configuration_witness :
  let sig := Some (signal_name "SIGINT") in
  let s0 := NpmConfManager Scenario.conf Scenario.files in
  let s1 := final_state (runExecutor Sample.never_fails true Scenario.options ["acme"]
                           [on_exit (Some 0%Z)] s0) in
  let s2 := final_state (processExitListener Sample.never_fails (λ _, false) sig s1) in
  npmrc s2 = Scenario.files ∧ Kill sig ∈ trace s2.
Proof.
  intros sig s0 s1 s2.
  apply (session_restores_configuration Sample.never_fails (λ _, false) Scenario.options
           ["acme"] [on_exit (Some 0%Z)] sig Scenario.conf Scenario.files
           (Some {| success := true; port := 4873 |}) s1 s2).
  - intros name. split; [reflexivity|]. unfold Scenario.conf, Scenario.files.
    intros [[_ H]|[_ [H _]%lookup_singleton_Some]]%lookup_insert_Some; done.
  - reflexivity.
  - reflexivity.
  - intros e He. vm_compute in He.
    repeat (apply elem_of_cons in He as [He|He]; [discriminate|]).
    by apply elem_of_nil in He.
Defined.

Lemma restoreAll_stops_at_first_failure_witness :
  let s := emit (Kill None) Sample.serving in
  let c := config_set "registry" "https://npm.acme.test/" (Some "user") in
  ∃ done rest,
    restore_commands (originalValuesForLocations s) = done ++ c :: rest
    ∧ npmrc (final_state (restoreAll Scenario.fails_after_kill s)) = npmrc s.
Proof.
  intros s c.
  destruct (restoreAll_stops_at_first_failure Scenario.fails_after_kill s
              (final_state (restoreAll Scenario.fails_after_kill s))
              (CommandFailed c))
    as (done & c' & rest & Hcmds & Hc & Hfails & Hnpmrc & _).
  - reflexivity.
  - injection Hc as <-. exists done, rest. split; [done|].
    destruct done as [|c0 done]; [by rewrite Hnpmrc|].
    injection Hcmds as <- Hnil. by destruct done.
Defined.

End registry_scenarios.
